(** * cathi_score: a shallow embedding of the SiRTA scoring program

    The development follows [cathi_score.py]: the regular expressions the
    program hands to the [regex] module, the pattern classifiers
    ([contains_gt4_gs], [all_ggtgg]), the recursive candidate splitter
    ([test_candidate]), the motif extractor ([find_tg_kmers]), the scorer
    ([score_groups], [calculate_penalty]) and the two sliding-window
    aggregators.

    Modelling conventions.
    - A Python [str] is a [list ascii].
    - An [int] that the program computes from lengths and match offsets is a
      [nat]; the integers supplied by the caller (window, step, start) are [Z].
    - The scores and the penalty weights are rationals ([Q]); the only NaN of
      the program, the initial maximum of the max mode, is a constructor of
      its own.
    - The number of windows is computed in double precision: the division
      and the addition of [((len(seq)-window)/step)+1] are rounded to the
      nearest double, as IEEE 754 prescribes, and the division of integers
      overflows beyond the largest double.
    - A Python exception is the [None] of an [option].  The limits of the
      interpreter on resources (memory, the depth of recursion) are not
      modelled. *)

From Stdlib Require Import Ascii String.
From Stdlib Require Import ZArith QArith Qround Qpower Qabs Lia Lqa Bool Arith List.
Import ListNotations.

Local Open Scope nat_scope.
Local Open Scope list_scope.

(** ** Strings *)

Definition pystr := list ascii.

Definition str (s : string) : pystr := list_ascii_of_string s.

Fixpoint pystr_eqb (a b : pystr) : bool :=
  match a, b with
  | [], [] => true
  | x :: a', y :: b' => Ascii.eqb x y && pystr_eqb a' b'
  | _, _ => false
  end.

(** [s[a:b]] for offsets that are not negative. *)
Definition slice (s : pystr) (a b : nat) : pystr := firstn (b - a) (skipn a s).

(** [s[i] == ch]; false when [i] is out of range (the program only indexes
    behind a length test). *)
Definition char_is (s : pystr) (i : nat) (ch : ascii) : bool :=
  match nth_error s i with
  | Some x => Ascii.eqb x ch
  | None => false
  end.

(** [s[lo:hi]] for arbitrary integers: negative offsets count from the end,
    and both are clamped to the string. *)
Definition py_clamp (len i : Z) : Z :=
  if (i <? 0)%Z then Z.max (i + len) 0 else Z.min i len.

Definition py_slice (s : pystr) (lo hi : Z) : pystr :=
  let len := Z.of_nat (length s) in
  let lo' := py_clamp len lo in
  let hi' := py_clamp len hi in
  slice s (Z.to_nat lo') (Z.to_nat hi').

(** [s[i]] for an arbitrary integer; [None] is Python's IndexError. *)
Definition py_get (s : pystr) (i : Z) : option ascii :=
  let len := Z.of_nat (length s) in
  if (i <? 0)%Z then
    if (i + len <? 0)%Z then None else nth_error s (Z.to_nat (i + len))
  else nth_error s (Z.to_nat i).

Definition infix (k s : pystr) : Prop :=
  exists pre post, s = pre ++ k ++ post.

(** ** The regular expressions of the program

    A backtracking matcher with Python's priorities: [run r s] lists the
    remainders of [s] after each way of matching [r] at its start, in the
    order in which the engine tries them (greedy first).  The first element
    is the match the engine reports. *)

Inductive regex : Type :=
| Eps
| Lit (c : ascii)
| Cls (cs : list ascii)
| Cat (r1 r2 : regex)
| Opt (r : regex)
| Rep (r : regex)
| Eol.

Definition newline : ascii := "010"%char.

(** Greedy iteration of a one-step matcher; an iteration that consumes
    nothing is not repeated. *)
Fixpoint star (f : pystr -> list pystr) (n : nat) (s : pystr) : list pystr :=
  match n with
  | O => [s]
  | S n' =>
      flat_map (fun s' => if length s' <? length s then star f n' s' else [])
               (f s) ++ [s]
  end.

Fixpoint run (r : regex) (s : pystr) : list pystr :=
  match r with
  | Eps => [s]
  | Lit c =>
      match s with
      | x :: t => if Ascii.eqb x c then [t] else []
      | [] => []
      end
  | Cls cs =>
      match s with
      | x :: t => if existsb (Ascii.eqb x) cs then [t] else []
      | [] => []
      end
  | Cat a b => flat_map (run b) (run a s)
  | Opt a => run a s ++ [s]
  | Rep a => star (run a) (length s) s
  | Eol =>
      match s with
      | [] => [s]
      | [c] => if Ascii.eqb c newline then [s] else []
      | _ => []
      end
  end.

(** A literal string as a pattern. *)
Fixpoint lit (k : pystr) : regex :=
  match k with
  | [] => Eps
  | c :: k' => Cat (Lit c) (lit k')
  end.

(** [r{n,}]: [n] copies, then greedily more. *)
Fixpoint at_least (n : nat) (r : regex) : regex :=
  match n with
  | O => Rep r
  | S n' => Cat r (at_least n' r)
  end.

(** A match object: the span [(start, end)]. *)
Definition span := (nat * nat)%type.

(** [re.match(r, s)]: anchored at the start. *)
Definition re_match (r : regex) (s : pystr) : option span :=
  match run r s with
  | rem :: _ => Some (0, length s - length rem)
  | [] => None
  end.

(** The leftmost match at or after the current position; [i] is the offset of
    [s] in the whole string. *)
Fixpoint search_from (r : regex) (i : nat) (s : pystr) : option span :=
  match run r s with
  | rem :: _ => Some (i, i + (length s - length rem))
  | [] =>
      match s with
      | [] => None
      | _ :: t => search_from r (S i) t
      end
  end.

(** [re.search(r, s)]. *)
Definition re_search (r : regex) (s : pystr) : option span := search_from r 0 s.

(** [re.finditer(r, s)]: the matches from left to right, each search starting
    where the previous match ended (one further after an empty match; no
    pattern of the program matches the empty string). *)
Fixpoint finditer_from (fuel : nat) (r : regex) (i : nat) (s : pystr) : list span :=
  match fuel with
  | O => []
  | S fuel' =>
      match search_from r i s with
      | None => []
      | Some (a, b) =>
          let next := if b =? a then S b else b in
          (a, b) :: finditer_from fuel' r next (skipn (next - i) s)
      end
  end.

Definition re_finditer (r : regex) (s : pystr) : list span :=
  finditer_from (S (length s)) r 0 s.

(** [re.findall(r, s, overlapped=True)]: a match is looked for at every
    start offset. *)
Fixpoint re_findall_overlapped (r : regex) (s : pystr) : list pystr :=
  match run r s with
  | rem :: _ => [firstn (length s - length rem) s]
  | [] => []
  end ++
  match s with
  | [] => []
  | _ :: t => re_findall_overlapped r t
  end.

Definition chG : ascii := "G"%char.
Definition chT : ascii := "T"%char.

(** [GGGG+] *)
Definition re_GGGG_plus : regex :=
  Cat (lit (str "GGG")) (Cat (Lit chG) (Rep (Lit chG))).

(** [((?:GGT){2,}G?)] *)
Definition re_GGT_repeat : regex :=
  Cat (at_least 2 (lit (str "GGT"))) (Opt (Lit chG)).

(** [GTGGTGGT?$] *)
Definition re_GTGGTGG_end : regex :=
  Cat (lit (str "GTGGTGG")) (Cat (Opt (Lit chT)) Eol).

(** [TT] *)
Definition re_TT : regex := lit (str "TT").

(** [(G[GT]{3,})] *)
Definition re_G_GT3 : regex :=
  Cat (Lit chG) (at_least 3 (Cls [chG; chT])).

(** [(GGTGG)] *)
Definition re_GGTGG : regex := lit (str "GGTGG").

(** ** The program *)

Definition is_some {A : Type} (o : option A) : bool :=
  match o with
  | Some _ => true
  | None => false
  end.

(** [contains_gt4_gs]: a run of four or more [G]. *)
Definition contains_gt4_gs (seq : pystr) : bool :=
  is_some (re_search re_GGGG_plus seq).

(** [all_ggtgg]: the sequence is nothing but the GGTGG repeat. *)
Definition all_ggtgg (seq : pystr) : bool :=
  let m := re_search re_GGT_repeat seq in
  if pystr_eqb seq (str "GGTGG") || is_some (re_match re_GTGGTGG_end seq) then
    true
  else
    match m with
    | Some (a, b) => pystr_eqb (slice seq a b) seq
    | None => false
    end.

(** [[s.start(0) for s in re.finditer(r"TT", c)]] *)
Definition tt_pos (c : pystr) : list nat := map fst (re_finditer re_TT c).

(** [test_candidate], with a budget of nested calls: [None] when the budget
    is used up (or when [tt_pos[0]] does not exist). *)
Fixpoint test_candidate_fuel (fuel : nat) (c : pystr) : option (list pystr) :=
  match fuel with
  | O => None
  | S fuel' =>
      let tt := tt_pos c in
      if (length tt =? 0) && (4 <=? length c) && negb (char_is c 0 chT) then
        Some (if negb (all_ggtgg c) then [c] else [])
      else if (length tt =? 0) && (4 <=? length c) && char_is c 0 chT then
        test_candidate_fuel fuel' (skipn 1 c)
      else if 4 <? length c then
        match tt with
        | [] => None
        | t0 :: _ =>
            match test_candidate_fuel fuel' (firstn (t0 + 1) c),
                  test_candidate_fuel fuel' (skipn (t0 + 1) c) with
            | Some l, Some r => Some (l ++ r)
            | _, _ => None
            end
        end
      else Some []
  end.

(** The splitter itself: every call is on a shorter string, so a budget of
    one more than the length is never used up ([test_candidate_fuel_enough]
    below). *)
Definition test_candidate (c : pystr) : list pystr :=
  match test_candidate_fuel (S (length c)) c with
  | Some r => r
  | None => []
  end.

(** The body of the inner loop of [find_tg_kmers] for one fragment [k] of the
    match [(ms, me)]; [None] is the AttributeError of [re.search(...).start()]
    on a failed search.  [k] is made of [G] and [T] only, so as a pattern it
    is the literal [k]. *)
Definition add_kmer (seq : pystr) (m : span) (st : list pystr * list span)
                    (k : pystr) : option (list pystr * list span) :=
  let '(ms, me) := m in
  let '(kmers, pos) := st in
  if negb (pystr_eqb k []) then
    if me - ms =? length k then
      Some (kmers ++ [k], pos ++ [(ms, me)])
    else
      match re_search (lit k) (slice seq ms me) with
      | Some (offset, _) =>
          let new_start := ms + offset in
          Some (kmers ++ [k], pos ++ [(new_start, new_start + length k)])
      | None => None
      end
  else Some st.

(** A loop whose body may raise. *)
Fixpoint for_each {A B : Type} (body : B -> A -> option B) (l : list A) (st : B)
  : option B :=
  match l with
  | [] => Some st
  | x :: l' =>
      match body st x with
      | Some st' => for_each body l' st'
      | None => None
      end
  end.

(** The body of the outer loop of [find_tg_kmers]. *)
Definition add_match (seq : pystr) (st : list pystr * list span) (m : span)
  : option (list pystr * list span) :=
  let '(ms, me) := m in
  if negb (contains_gt4_gs (slice seq ms me)) && negb (all_ggtgg (slice seq ms me)) then
    for_each (add_kmer seq m) (test_candidate (slice seq ms me)) st
  else Some st.

Definition find_tg_kmers (seq : pystr) : option (list pystr * list span) :=
  for_each (add_match seq) (re_finditer re_G_GT3 seq) ([], []).

(** [score_groups]: the number of nucleotides in the candidates. *)
Definition score_groups (seq_groups : list pystr) : nat :=
  list_sum (map (@length ascii) seq_groups).

(** The first loop of [calculate_penalty]. *)
Definition ggtgg_penalty (seq_groups : list pystr) (p : Q) (penalty_sum : Q) : Q :=
  fold_left
    (fun acc g =>
       let ggtgg := re_findall_overlapped re_GGTGG g in
       (acc + inject_Z (Z.of_nat (length ggtgg)) * p)%Q)
    seq_groups penalty_sum.

(** The test of the second loop: [end < len(seq)], then [seq[end] == "T" and
    seq[end-1] == "T"]. *)
Definition flanking_tt (seq : pystr) (e : nat) : bool :=
  if e <? length seq then
    match py_get seq (Z.of_nat e) with
    | Some x => Ascii.eqb x chT
    | None => false
    end &&
    match py_get seq (Z.of_nat e - 1) with
    | Some x => Ascii.eqb x chT
    | None => false
    end
  else false.

(** The second loop of [calculate_penalty]. *)
Definition flanking_penalty (pos : list span) (tp : Q) (seq : pystr) (penalty_sum : Q) : Q :=
  fold_left
    (fun acc (se : span) =>
       let '(_, e) := se in
       if flanking_tt seq e then (acc + tp)%Q else acc)
    pos penalty_sum.

Definition calculate_penalty (seq_groups : list pystr) (p tp : Q)
                             (pos : list span) (seq : pystr) : Q :=
  let penalty_sum := 0%Q in
  let penalty_sum := ggtgg_penalty seq_groups p penalty_sum in
  let penalty_sum := flanking_penalty pos tp seq penalty_sum in
  penalty_sum.

(** The score of one window, as both aggregators compute it:
    [groups, pos = find_tg_kmers(w)], then
    [score_groups(groups) - calculate_penalty(groups, penalty, tt_penalty, pos, w)]. *)
Definition window_score (w : pystr) (penalty tt_penalty : Q) : option Q :=
  match find_tg_kmers w with
  | Some (groups, pos) =>
      Some (inject_Z (Z.of_nat (score_groups groups))
            - calculate_penalty groups penalty tt_penalty pos w)%Q
  | None => None
  end.

(** [range(0, stop, step)] for a positive or negative step; [None] is the
    ValueError of a zero step. *)
Definition py_range0 (stop step : Z) : option (list Z) :=
  if (step =? 0)%Z then None
  else
    let n :=
      if (0 <? step)%Z then
        if (0 <? stop)%Z then ((stop - 1) / step + 1)%Z else 0%Z
      else
        if (stop <? 0)%Z then ((- stop - 1) / (- step) + 1)%Z else 0%Z in
    Some (map (fun k => (Z.of_nat k * step)%Z) (seq 0 (Z.to_nat n))).

(** Python's [round] of a number to an integer: to the nearest, halves to
    the even neighbour. *)
Definition py_round (x : Q) : Z :=
  let f := Qfloor x in
  match (x - inject_Z f ?= 1 # 2)%Q with
  | Lt => f
  | Gt => (f + 1)%Z
  | Eq => if Z.even f then f else (f + 1)%Z
  end.

(** *** Double precision

    The number of windows is computed with [float]s: IEEE 754 binary64,
    rounding to the nearest double, halves to the even one.  A finite double
    is the rational that it denotes. *)

(** The exponent [e] with [2^(e-1) <= |x| < 2^e], for an [x] other than
    zero. *)
Definition binade (x : Q) : Z :=
  let n := Z.abs (Qnum x) in
  let d := Zpos (Qden x) in
  let s := (Z.log2 n - Z.log2 d)%Z in
  if (d * 2 ^ Z.max s 0 <=? n * 2 ^ Z.max (- s) 0)%Z then (s + 1)%Z else s.

(** The exponent of the last place of the doubles of the binade [e]: 53
    significant bits, and never below the last place of the subnormals. *)
Definition fexp64 (e : Z) : Z := Z.max (e - 53) (-1074).

(** The multiple of [2^f] nearest to [x], halves to the even one. *)
Definition round_to (f : Z) (x : Q) : Q :=
  (inject_Z (py_round (x * 2 ^ (- f))) * 2 ^ f)%Q.

(** The double nearest to [x]; [None] when it is beyond the largest double
    (the OverflowError of a division of integers). *)
Definition round64 (x : Q) : option Q :=
  if Qeq_bool x 0 then Some 0%Q
  else
    let r := round_to (fexp64 (binade x)) x in
    if Qle_bool (2 ^ 1024) (Qabs r) then None else Some r.

(** [((len(seq)-window)/step)+1]: the true division of two integers, which
    gives the double nearest to the quotient, then the addition of [1] to
    that double, rounded again.  [None] is the ZeroDivisionError of a zero
    step, or the OverflowError of a quotient too large for a double. *)
Definition window_ratio (len window step : Z) : option Q :=
  if (step =? 0)%Z then None
  else
    match round64 (inject_Z (len - window) / inject_Z step) with
    | None => None
    | Some q => round64 (q + 1)
    end.

(** The running maximum of the max mode: [np.nan] or a score. *)
Inductive npfloat : Type :=
| nan
| fin (q : Q).

Definition max_step (max_score : npfloat) (score : Q) : npfloat :=
  match max_score with
  | nan => fin score
  | fin m => if Qlt_le_dec m score then fin score else fin m
  end.

(** [calc_max_score_over_windows] *)
Definition calc_max_score_over_windows (seq : pystr) (penalty tt_penalty : Q)
                                       (window step : Z) : option npfloat :=
  match window_ratio (Z.of_nat (length seq)) window step with
  | None => None
  | Some x =>
      let num_windows := py_round x in
      match py_range0 (num_windows * step) step with
      | None => None
      | Some offsets =>
          for_each
            (fun max_score i =>
               match window_score (py_slice seq i (i + window)) penalty tt_penalty with
               | Some score => Some (max_step max_score score)
               | None => None
               end)
            offsets nan
      end
  end.

(** A row of the signal: [[chrom, start, end, score]]. *)
Record scored_window : Type := mk_scored_window {
  sw_chrom : string;
  sw_start : Z;
  sw_end : Z;
  sw_score : Q
}.

(** [calc_score_over_windows] *)
Definition calc_score_over_windows (seq : pystr) (chrom : string) (start : Z)
                                   (penalty tt_penalty : Q) (window step : Z)
                                   (strand : string) : option (list scored_window) :=
  match window_ratio (Z.of_nat (length seq)) window step with
  | None => None
  | Some x =>
      let num_windows := Qceiling x in
      match py_range0 (num_windows * step) step with
      | None => None
      | Some offsets =>
          for_each
            (fun scores i =>
               let seq_len := Z.of_nat (length (py_slice seq i (i + window))) in
               match window_score (py_slice seq i (i + window)) penalty tt_penalty with
               | Some score =>
                   if String.eqb strand "+" then
                     Some (scores ++ [mk_scored_window chrom (start + i) (start + i + seq_len) score])
                   else
                     Some (scores ++ [mk_scored_window chrom (start - i - seq_len) (start - i) score])
               | None => None
               end)%Z
            offsets []
      end
  end.

(** ** Vocabulary of the statements

    The language of a pattern, the tests of the program under a name, and
    the quantities the theorems speak about. *)

(** The words of a pattern, without regard to the order in which the engine
    tries them ([$] taken as the empty word). *)
Inductive lang : regex -> pystr -> Prop :=
| lang_eps : lang Eps []
| lang_lit c : lang (Lit c) [c]
| lang_cls c cs : In c cs -> lang (Cls cs) [c]
| lang_cat a b u v : lang a u -> lang b v -> lang (Cat a b) (u ++ v)
| lang_opt_skip a : lang (Opt a) []
| lang_opt_take a u : lang a u -> lang (Opt a) u
| lang_rep_stop a : lang (Rep a) []
| lang_rep_more a u v : lang a u -> lang (Rep a) v -> lang (Rep a) (u ++ v)
| lang_eol : lang Eol [].

(** Every remainder that the matcher [f] reports is what is left of the
    input after a word of [r]. *)
Definition sound_at (r : regex) (f : pystr -> list pystr) : Prop :=
  forall s rem, In rem (f s) -> exists pre, s = pre ++ rem /\ lang r pre.

(** The test of the first branch of [test_candidate]. *)
Definition accepts_shape (c : pystr) : bool :=
  (length (tt_pos c) =? 0) && (4 <=? length c) && negb (char_is c 0 chT).

(** The test of its second branch. *)
Definition leading_t_shape (c : pystr) : bool :=
  (length (tt_pos c) =? 0) && (4 <=? length c) && char_is c 0 chT.

(** [k] repeated [n] times. *)
Fixpoint repeat_str (k : pystr) (n : nat) : pystr :=
  match n with
  | O => []
  | S n' => k ++ repeat_str k n'
  end.

(** The unit of the repeat. *)
Definition ggt : pystr := str "GGT".

(** The last test of [all_ggtgg]: the first repeat found is the whole string. *)
Definition whole_GGT_repeat (seq : pystr) : bool :=
  match re_search re_GGT_repeat seq with
  | Some (a, b) => pystr_eqb (slice seq a b) seq
  | None => false
  end.

(** The pure-repeat predicate in the words of the specification: the string
    is ["GGTGG"], or ["GTGGTGGT"] optionally followed by one more ["T"], or
    ["GGT"] two or more times optionally followed by one ["G"]. *)
Definition spec_pure_ggtgg_repeat (seq : pystr) : Prop :=
  seq = str "GGTGG" \/
  (seq = str "GTGGTGGT" \/ seq = str "GTGGTGGT" ++ str "T") \/
  exists n, 2 <= n /\ (seq = repeat_str ggt n \/ seq = repeat_str ggt n ++ [chG]).

(** A nucleotide of a G/T run. *)
Definition is_GT (c : ascii) : Prop := c = chG \/ c = chT.

(** A recorded span lies in the window [w] and spells out its candidate. *)
Definition kmer_ok (w k : pystr) (p : span) : Prop :=
  slice w (fst p) (snd p) = k /\ snd p = fst p + length k /\ snd p <= length w.

(** A candidate passed the tests of the splitter, on a piece of an admissible
    match. *)
Definition accepted (k : pystr) : Prop :=
  accepts_shape k = true /\ all_ggtgg k = false /\
  contains_gt4_gs k = false /\ Forall is_GT k.

(** The invariant of the two lists of [find_tg_kmers] on the window [w]:
    they go in pairs, and every candidate is accepted. *)
Definition kmers_inv (w : pystr) (st : list pystr * list span) : Prop :=
  Forall2 (kmer_ok w) (fst st) (snd st) /\ Forall accepted (fst st).

(** The number of (overlapping) ["GGTGG"] in the candidates. *)
Definition ggtgg_count (seq_groups : list pystr) : nat :=
  list_sum (map (fun g => length (re_findall_overlapped re_GGTGG g)) seq_groups).

(** The number of recorded positions that are followed by a ["TT"] flank. *)
Definition flanking_count (pos : list span) (seq : pystr) : nat :=
  length (filter (fun se : span => flanking_tt seq (snd se)) pos).

(** A count as a number. *)
Definition of_nat (n : nat) : Q := inject_Z (Z.of_nat n).

(** The score of a window, which always exists. *)
Definition score_of (w : pystr) (p tp : Q) : Q :=
  match window_score w p tp with
  | Some score => score
  | None => 0%Q
  end.

(** One row of the signal, at the window offset [i]. *)
Definition signal_row (seq : pystr) (chrom : string) (start : Z) (p tp : Q)
           (window : Z) (strand : string) (i : Z) : scored_window :=
  let w := py_slice seq i (i + window) in
  let seq_len := Z.of_nat (length w) in
  if String.eqb strand "+" then
    mk_scored_window chrom (start + i) (start + i + seq_len) (score_of w p tp)
  else
    mk_scored_window chrom (start - i - seq_len) (start - i) (score_of w p tp).

(** ** Printing the signal *)

(** [signal_to_bedgraph]: the rows whose line is printed, in the order in
    which they are printed ([s[3] >= threshold]). *)
Definition signal_to_bedgraph (signals : list scored_window) (threshold : Q)
  : list scored_window :=
  filter (fun s => Qle_bool threshold (sw_score s)) signals.

(** ** The header of a record

    [parse_seqs_from_fasta_signal] and, with [bed_format],
    [parse_seqs_from_fasta_max] take the chromosome and the start from the
    identifier of the record:
    [header = re.split(":|-", record.id)], then
    [header[0][0:3].lower()+header[0][3:]] and [header[1]].  (The conversion
    of [header[1]] by [int] is not part of the model.) *)

Definition ch_colon : ascii := ":"%char.
Definition ch_dash : ascii := "-"%char.

(** [:|-]: either of two one-character literals, which is the class of the
    two characters. *)
Definition re_sep : regex := Cls [ch_colon; ch_dash].

(** The pieces between the matches: [s[pos:m.start()]] for each match, then
    the rest. *)
Fixpoint cut (s : pystr) (pos : nat) (spans : list span) : list pystr :=
  match spans with
  | [] => [slice s pos (length s)]
  | (a, b) :: rest => slice s pos a :: cut s b rest
  end.

(** [re.split(r, s)] for a pattern without groups. *)
Definition re_split (r : regex) (s : pystr) : list pystr :=
  cut s 0 (re_finditer r s).

(** [str.lower] on one character (code points below 256: the letters
    [A]-[Z], and [192]-[222] but for [215], move up by 32). *)
Definition py_lower_char (c : ascii) : ascii :=
  let n := nat_of_ascii c in
  if ((65 <=? n) && (n <=? 90)) ||
     ((192 <=? n) && (n <=? 222) && negb (n =? 215))
  then ascii_of_nat (n + 32)
  else c.

Definition py_lower (s : pystr) : pystr := map py_lower_char s.

(** The chromosome name and the text of the start; [None] is the IndexError
    of [header[1]]. *)
Definition record_header (id : pystr) : option (pystr * pystr) :=
  let header := re_split re_sep id in
  match nth_error header 0, nth_error header 1 with
  | Some h0, Some h1 => Some (py_lower (slice h0 0 3) ++ skipn 3 h0, h1)
  | _, _ => None
  end.

(** A character that is neither [':'] nor ['-']. *)
Definition not_sep (c : ascii) : Prop := c <> ch_colon /\ c <> ch_dash.

(** ** Vocabulary of the further properties *)

(** The strings [ks] lie in [s] one after the other, without overlap. *)
Inductive scattered : list pystr -> pystr -> Prop :=
| scattered_nil s : scattered [] s
| scattered_cons gap k ks s :
    scattered ks s -> scattered (k :: ks) (gap ++ k ++ s).

(** What one match adds to the candidates of [find_tg_kmers]. *)
Definition kmers_of_match (seq : pystr) (m : span) : list pystr :=
  if negb (contains_gt4_gs (slice seq (fst m) (snd m))) &&
     negb (all_ggtgg (slice seq (fst m) (snd m)))
  then filter (fun k => negb (pystr_eqb k [])) (test_candidate (slice seq (fst m) (snd m)))
  else [].

(** The number of offsets of [s] at which [k] occurs. *)
Definition occurrences (k s : pystr) : nat :=
  length (filter (fun i => pystr_eqb (slice s i (i + length k)) k)
                 (seq 0 (S (length s)))).

(** The offsets of the windows for a count [n] and a positive step. *)
Definition window_offsets (n step : Z) : list Z :=
  map (fun k => (Z.of_nat k * step)%Z) (seq 0 (Z.to_nat n)).

(** The running maximum over a list of scores. *)
Definition max_over (scores : list Q) : npfloat := fold_left max_step scores nan.

(** A row reflected about the coordinate [start]. *)
Definition mirror (start : Z) (r : scored_window) : scored_window :=
  mk_scored_window (sw_chrom r) (2 * start - sw_end r)%Z (2 * start - sw_start r)%Z
                   (sw_score r).

(** The score of the window of [seq] at the offset [i]. *)
Definition score_at (seq : pystr) (p tp : Q) (window i : Z) : Q :=
  score_of (py_slice seq i (i + window)) p tp.

(** [r] is on the same side as [y] of every integer and of every half of an
    integer. *)
Definition same_halves (y r : Q) : Prop :=
  forall j : Z,
    (inject_Z j * (1 # 2) < y -> inject_Z j * (1 # 2) < r)%Q /\
    (y < inject_Z j * (1 # 2) -> r < inject_Z j * (1 # 2))%Q /\
    (y == inject_Z j * (1 # 2) -> r == inject_Z j * (1 # 2))%Q.

(** ** Strings: basic facts *)

Lemma pystr_eqb_eq (a b : pystr) : pystr_eqb a b = true <-> a = b.
Proof.
  revert b; induction a as [|x a IH]; intros [|y b]; simpl; split;
    try congruence; try reflexivity.
  - intros H. apply andb_true_iff in H as [Hx Hab].
    apply Ascii.eqb_eq in Hx. apply IH in Hab. congruence.
  - intros H. injection H as -> ->.
    rewrite Ascii.eqb_refl. simpl. now apply IH.
Qed.

Lemma pystr_eqb_refl (a : pystr) : pystr_eqb a a = true.
Proof. now apply pystr_eqb_eq. Qed.

Lemma pystr_eqb_neq (a b : pystr) : pystr_eqb a b = false <-> a <> b.
Proof.
  split.
  - intros H E. apply pystr_eqb_eq in E. congruence.
  - intros H. destruct (pystr_eqb a b) eqn:E; [|reflexivity].
    apply pystr_eqb_eq in E. contradiction.
Qed.

Lemma slice_full (s : pystr) : slice s 0 (length s) = s.
Proof. unfold slice. rewrite Nat.sub_0_r. simpl. apply firstn_all. Qed.

Lemma slice_app (pre m post : pystr) :
  slice (pre ++ m ++ post) (length pre) (length pre + length m) = m.
Proof.
  unfold slice. rewrite skipn_app, skipn_all, Nat.sub_diag. simpl.
  replace (length pre + length m - length pre) with (length m + 0) by lia.
  rewrite firstn_app_2. simpl. apply app_nil_r.
Qed.

Lemma slice_length (s : pystr) (a b : nat) :
  a <= b -> b <= length s -> length (slice s a b) = b - a.
Proof.
  intros Hab Hb. unfold slice. rewrite length_firstn, length_skipn. lia.
Qed.

Lemma slice_infix (s : pystr) (a b : nat) : infix (slice s a b) s.
Proof.
  unfold slice, infix.
  exists (firstn a s), (skipn (b - a) (skipn a s)).
  now rewrite firstn_skipn, firstn_skipn.
Qed.

Lemma infix_refl (s : pystr) : infix s s.
Proof. exists [], []. simpl. now rewrite app_nil_r. Qed.

Lemma infix_trans (a b c : pystr) : infix a b -> infix b c -> infix a c.
Proof.
  intros (p1 & q1 & ->) (p2 & q2 & ->).
  exists (p2 ++ p1), (q1 ++ q2). now rewrite <- !app_assoc.
Qed.

Lemma infix_length (k s : pystr) : infix k s -> length k <= length s.
Proof. intros (p & q & ->). rewrite !length_app. lia. Qed.

Lemma infix_same_length (k s : pystr) :
  infix k s -> length k = length s -> k = s.
Proof.
  intros (p & q & ->) H. rewrite !length_app in H.
  destruct p; [|simpl in H; lia]. destruct q; [|simpl in H; lia].
  simpl. now rewrite app_nil_r.
Qed.

Lemma infix_firstn (n : nat) (s : pystr) : infix (firstn n s) s.
Proof. exists [], (skipn n s). simpl. now rewrite firstn_skipn. Qed.

Lemma infix_skipn (n : nat) (s : pystr) : infix (skipn n s) s.
Proof. exists (firstn n s), []. now rewrite app_nil_r, firstn_skipn. Qed.

Create HintDb pieces.
#[local] Hint Resolve slice_infix infix_refl infix_firstn infix_skipn : pieces.

Lemma infix_Forall (P : ascii -> Prop) (k s : pystr) :
  infix k s -> Forall P s -> Forall P k.
Proof.
  intros (p & q & ->) H. apply Forall_app in H as [_ H].
  now apply Forall_app in H as [H _].
Qed.

(** ** The matcher: soundness *)

Lemma star_sound (a : regex) (f : pystr -> list pystr) :
  sound_at a f -> forall n, sound_at (Rep a) (star f n).
Proof.
  intros Hf n. induction n as [|n IH]; intros s rem Hin; simpl in Hin.
  - destruct Hin as [<-|[]]. exists []. split; [reflexivity|constructor].
  - apply in_app_or in Hin as [Hin|[<-|[]]].
    + apply in_flat_map in Hin as (s' & Hs' & Hin).
      destruct (length s' <? length s); [|contradiction].
      apply Hf in Hs' as (u & -> & Hu).
      apply IH in Hin as (v & -> & Hv).
      exists (u ++ v). split; [now rewrite app_assoc|now constructor].
    + exists []. split; [reflexivity|constructor].
Qed.

Lemma run_sound (r : regex) : sound_at r (run r).
Proof.
  induction r as [|c|cs|a IHa b IHb|a IHa|a IHa|]; intros s rem Hin; simpl in Hin.
  - destruct Hin as [<-|[]]. exists []. split; [reflexivity|constructor].
  - destruct s as [|x t]; [contradiction|].
    destruct (Ascii.eqb_spec x c) as [->|]; [|contradiction].
    destruct Hin as [<-|[]]. exists [c]. split; [reflexivity|constructor].
  - destruct s as [|x t]; [contradiction|].
    destruct (existsb (Ascii.eqb x) cs) eqn:E; [|contradiction].
    destruct Hin as [<-|[]]. exists [x]. split; [reflexivity|].
    constructor. apply existsb_exists in E as (y & Hy & Exy).
    apply Ascii.eqb_eq in Exy. now subst.
  - apply in_flat_map in Hin as (s' & Hs' & Hin).
    apply IHa in Hs' as (u & -> & Hu). apply IHb in Hin as (v & -> & Hv).
    exists (u ++ v). split; [now rewrite app_assoc|now constructor].
  - apply in_app_or in Hin as [Hin|[<-|[]]].
    + apply IHa in Hin as (u & -> & Hu). exists u. split; [reflexivity|].
      now apply lang_opt_take.
    + exists []. split; [reflexivity|constructor].
  - now apply (star_sound a (run a) IHa (length s)).
  - exists []. split; [|constructor]. simpl.
    destruct s as [|c [|c' s']]; try contradiction.
    + now destruct Hin as [<-|[]].
    + destruct (Ascii.eqb c newline); [|contradiction].
      now destruct Hin as [<-|[]].
Qed.

(** ** Searching *)

Lemma search_from_unfold (r : regex) (i : nat) (s : pystr) :
  search_from r i s =
  match run r s with
  | rem :: _ => Some (i, i + (length s - length rem))
  | [] => match s with [] => None | _ :: t => search_from r (S i) t end
  end.
Proof. destruct s; reflexivity. Qed.

(** What a successful search found: the leftmost offset at which the pattern
    matches, and there the first match of the engine. *)
Lemma search_from_Some (r : regex) (s : pystr) (i a b : nat) :
  search_from r i s = Some (a, b) ->
  exists pre m post,
    s = pre ++ m ++ post /\ a = i + length pre /\ b = a + length m /\
    lang r m /\ (exists rest, run r (m ++ post) = post :: rest) /\
    (forall j, j < length pre -> run r (skipn j s) = []).
Proof.
  revert i. induction s as [|x t IH]; intros i; rewrite search_from_unfold.
  - destruct (run r []) as [|rem rest] eqn:E; [discriminate|].
    intros H. injection H as <- <-.
    destruct (run_sound r [] rem) as (pre & Hs & Hl); [rewrite E; now left|].
    symmetry in Hs. apply app_eq_nil in Hs as [-> ->].
    exists [], [], []. simpl.
    split; [reflexivity|]. split; [lia|]. split; [lia|]. split; [assumption|].
    split; [now exists rest|]. intros j Hj; lia.
  - destruct (run r (x :: t)) as [|rem rest] eqn:E.
    + intros H. apply IH in H as (pre & m & post & -> & -> & -> & Hl & Hr & Hj).
      exists (x :: pre), m, post. simpl.
      split; [reflexivity|]. split; [lia|]. split; [lia|]. split; [assumption|].
      split; [assumption|].
      intros [|j] Hlt; simpl; [assumption|]. apply Hj. lia.
    + intros H. injection H as Ha Hb.
      destruct (run_sound r (x :: t) rem) as (pre & Hs & Hl); [rewrite E; now left|].
      assert (Hlen : length (x :: t) = length pre + length rem)
        by (rewrite Hs; apply length_app).
      exists [], pre, rem.
      split; [exact Hs|]. split; [simpl; lia|].
      split; [simpl in Hlen; destruct (length rem); lia|]. split; [assumption|].
      split; [exists rest; now rewrite <- Hs|]. intros j Hj; simpl in Hj; lia.
Qed.

Lemma search_from_None (r : regex) (s : pystr) (i : nat) :
  search_from r i s = None <-> forall j, run r (skipn j s) = [].
Proof.
  revert i. induction s as [|x t IH]; intros i; rewrite search_from_unfold.
  - split.
    + destruct (run r []) eqn:E; [|discriminate]. intros _ j.
      now rewrite skipn_nil.
    + intros H. specialize (H 0). simpl in H. now rewrite H.
  - split.
    + destruct (run r (x :: t)) eqn:E; [|discriminate]. intros H [|j]; simpl;
        [assumption|]. now apply (IH (S i)).
    + intros H. rewrite (H 0 : run r (x :: t) = []). apply IH.
      intros j. apply (H (S j)).
Qed.

Lemma search_from_head (r : regex) (s rem : pystr) (rest : list pystr) (i : nat) :
  run r s = rem :: rest ->
  search_from r i s = Some (i, i + (length s - length rem)).
Proof. intros H. rewrite search_from_unfold. now rewrite H. Qed.

(** ** Iterating over the matches *)

Lemma re_finditer_head (r : regex) (s : pystr) :
  re_finditer r s =
  match re_search r s with
  | None => []
  | Some (a, b) =>
      let next := if b =? a then S b else b in
      (a, b) :: finditer_from (length s) r next (skipn (next - 0) s)
  end.
Proof. reflexivity. Qed.

(** The patterns of the program do not match the empty string: each match
    consumes input, and the iteration goes on where the match ended. *)
Section Consuming.

Variable r : regex.
Hypothesis r_consumes : ~ lang r [].

Lemma run_consumes (s rem : pystr) :
  In rem (run r s) -> length rem < length s.
Proof.
  intros Hin. apply run_sound in Hin as (pre & -> & Hl).
  destruct pre; [contradiction|]. rewrite length_app. simpl. lia.
Qed.

Lemma search_from_nonempty (s : pystr) (i a b : nat) :
  search_from r i s = Some (a, b) -> i <= a /\ a < b /\ b <= i + length s.
Proof.
  intros H. apply search_from_Some in H as (pre & m & post & -> & -> & -> & Hl & _).
  rewrite !length_app. destruct m; [contradiction|]. simpl. lia.
Qed.

Lemma finditer_from_step (fuel : nat) (s : pystr) (i a b : nat) :
  search_from r i s = Some (a, b) ->
  finditer_from (S fuel) r i s = (a, b) :: finditer_from fuel r b (skipn (b - i) s).
Proof.
  intros E. pose proof (search_from_nonempty s i a b E) as (_ & Hab & _).
  simpl. rewrite E. now rewrite (proj2 (Nat.eqb_neq b a)) by lia.
Qed.

(** The budget of [re_finditer] is never used up. *)
Lemma finditer_from_fuel (fuel1 fuel2 : nat) (s : pystr) (i : nat) :
  length s < fuel1 -> length s < fuel2 ->
  finditer_from fuel1 r i s = finditer_from fuel2 r i s.
Proof.
  revert fuel2 s i.
  induction fuel1 as [|f1 IH]; intros [|f2] s i H1 H2; try lia.
  destruct (search_from r i s) as [[a b]|] eqn:E.
  - rewrite !(finditer_from_step _ _ _ _ _ E).
    apply search_from_nonempty in E as (Hia & Hab & Hb).
    f_equal. apply IH; rewrite length_skipn; lia.
  - simpl. now rewrite E.
Qed.

(** Every match reported is an occurrence of the pattern's language. *)
Lemma finditer_from_spans (fuel : nat) (s : pystr) (i a b : nat) :
  In (a, b) (finditer_from fuel r i s) ->
  exists pre m post,
    s = pre ++ m ++ post /\ a = i + length pre /\ b = a + length m /\ lang r m.
Proof.
  revert s i. induction fuel as [|f IH]; intros s i Hin; [contradiction|].
  destruct (search_from r i s) as [[a0 b0]|] eqn:E;
    [|simpl in Hin; now rewrite E in Hin].
  rewrite (finditer_from_step _ _ _ _ _ E) in Hin.
  pose proof (search_from_nonempty s i a0 b0 E) as (Hia & Hab & Hb).
  destruct Hin as [H|Hin].
  - injection H as -> ->.
    apply search_from_Some in E as (pre & m & post & -> & -> & -> & Hl & _).
    now exists pre, m, post.
  - apply IH in Hin as (pre & m & post & Hs & -> & -> & Hl).
    exists (firstn (b0 - i) s ++ pre), m, post.
    rewrite <- app_assoc, <- Hs, firstn_skipn, length_app, length_firstn.
    repeat split; auto; lia.
Qed.

Lemma re_finditer_spans (s : pystr) (a b : nat) :
  In (a, b) (re_finditer r s) ->
  a <= b /\ b <= length s /\ lang r (slice s a b).
Proof.
  intros Hin.
  apply finditer_from_spans in Hin as (pre & m & post & -> & -> & -> & Hl).
  simpl. rewrite slice_app, !length_app. repeat split; auto; lia.
Qed.

End Consuming.

(** ** Literal patterns *)

Lemma lang_lit_inv (k u : pystr) : lang (lit k) u -> u = k.
Proof.
  revert u. induction k as [|c k IH]; intros u H; simpl in H.
  - now inversion H.
  - inversion H as [| | |a b u1 u2 H1 H2| | | | |]; subst.
    inversion H1; subst. simpl. f_equal. now apply IH.
Qed.

Lemma lang_lit_nonempty (k : pystr) : k <> [] -> ~ lang (lit k) [].
Proof. intros Hk H. apply lang_lit_inv in H. congruence. Qed.

Lemma run_lit_app (k t : pystr) : run (lit k) (k ++ t) = [t].
Proof.
  induction k as [|c k IH]; simpl; [reflexivity|].
  rewrite Ascii.eqb_refl. simpl. rewrite IH. reflexivity.
Qed.

Lemma run_lit_In (k s rem : pystr) : In rem (run (lit k) s) -> s = k ++ rem.
Proof.
  intros H. apply run_sound in H as (pre & -> & Hl).
  apply lang_lit_inv in Hl. now subst.
Qed.

(** A literal is found exactly when it occurs. *)
Lemma search_lit_infix (k s : pystr) (i : nat) :
  infix k s -> exists a b, search_from (lit k) i s = Some (a, b).
Proof.
  intros (pre & post & ->).
  destruct (search_from (lit k) i (pre ++ k ++ post)) as [[a b]|] eqn:E;
    [now exists a, b|].
  rewrite search_from_None in E. specialize (E (length pre)).
  rewrite skipn_app, skipn_all, Nat.sub_diag in E. simpl in E.
  rewrite run_lit_app in E. discriminate.
Qed.

Lemma search_lit_None (k s : pystr) (i : nat) :
  search_from (lit k) i s = None -> ~ infix k s.
Proof.
  intros E H. apply (search_lit_infix k s i) in H as (a & b & H). congruence.
Qed.

Lemma search_lit_Some (k s : pystr) (a b : nat) :
  search_from (lit k) 0 s = Some (a, b) ->
  slice s a (a + length k) = k /\ b = a + length k /\ b <= length s.
Proof.
  intros H. apply search_from_Some in H as (pre & m & post & -> & -> & -> & Hl & _).
  apply lang_lit_inv in Hl. subst m. simpl. rewrite slice_app, !length_app.
  repeat split; lia.
Qed.

(** ** The [TT] breaks *)

Lemma re_TT_nonempty : ~ lang re_TT [].
Proof. apply lang_lit_nonempty. discriminate. Qed.

Lemma tt_pos_nil (c : pystr) : tt_pos c = [] <-> ~ infix (str "TT") c.
Proof.
  unfold tt_pos. rewrite re_finditer_head. unfold re_search. split.
  - destruct (search_from re_TT 0 c) as [[a b]|] eqn:E; [discriminate|].
    intros _. now apply search_lit_None in E.
  - intros H. destruct (search_from re_TT 0 c) as [[a b]|] eqn:E; [|reflexivity].
    exfalso. apply H. apply search_lit_Some in E as (E & _). rewrite <- E.
    apply slice_infix.
Qed.

Lemma tt_pos_head (c : pystr) (t0 : nat) (rest : list nat) :
  tt_pos c = t0 :: rest ->
  slice c t0 (t0 + 2) = str "TT" /\ t0 + 2 <= length c.
Proof.
  unfold tt_pos. rewrite re_finditer_head. unfold re_search.
  destruct (search_from re_TT 0 c) as [[a b]|] eqn:E; [|discriminate].
  simpl. intros H. injection H as <- _.
  apply search_lit_Some in E as (E & -> & Hb). split; assumption.
Qed.

(** ** The candidate splitter *)

Lemma test_candidate_fuel_S (fuel : nat) (c : pystr) :
  test_candidate_fuel (S fuel) c =
  if accepts_shape c then Some (if negb (all_ggtgg c) then [c] else [])
  else if leading_t_shape c then test_candidate_fuel fuel (skipn 1 c)
  else if 4 <? length c then
    match tt_pos c with
    | [] => None
    | t0 :: _ =>
        match test_candidate_fuel fuel (firstn (t0 + 1) c),
              test_candidate_fuel fuel (skipn (t0 + 1) c) with
        | Some l, Some r => Some (l ++ r)
        | _, _ => None
        end
    end
  else Some [].
Proof. reflexivity. Qed.

(** In the third branch a [TT] break exists, and both parts are shorter. *)
Lemma split_branch (c : pystr) :
  accepts_shape c = false -> leading_t_shape c = false -> 4 < length c ->
  exists t0 rest, tt_pos c = t0 :: rest /\
    length (firstn (t0 + 1) c) < length c /\
    length (skipn (t0 + 1) c) < length c.
Proof.
  unfold accepts_shape, leading_t_shape. intros H1 H2 Hlen.
  destruct (tt_pos c) as [|t0 rest] eqn:E.
  - exfalso.
    assert (H4 : (4 <=? length c) = true) by (apply Nat.leb_le; lia).
    rewrite H4 in H1, H2. simpl in H1, H2.
    destruct (char_is c 0 chT); discriminate.
  - exists t0, rest. split; [reflexivity|].
    apply tt_pos_head in E as (_ & Hb).
    rewrite length_firstn, length_skipn. lia.
Qed.

Lemma leading_t_branch (c : pystr) :
  leading_t_shape c = true -> length (skipn 1 c) < length c.
Proof.
  unfold leading_t_shape. intros H.
  apply andb_true_iff in H as [H _]. apply andb_true_iff in H as [_ H].
  apply Nat.leb_le in H. rewrite length_skipn. lia.
Qed.

(** A budget larger than the length is enough. *)
Lemma test_candidate_fuel_enough (fuel : nat) (c : pystr) :
  length c < fuel -> exists r, test_candidate_fuel fuel c = Some r.
Proof.
  revert c. induction fuel as [|fuel IH]; intros c Hlen; [lia|].
  rewrite test_candidate_fuel_S.
  destruct (accepts_shape c) eqn:H1; [eauto|].
  destruct (leading_t_shape c) eqn:H2.
  - apply IH. apply leading_t_branch in H2. lia.
  - destruct (4 <? length c) eqn:H4; [|eauto].
    apply Nat.ltb_lt in H4.
    destruct (split_branch c H1 H2 H4) as (t0 & rest & -> & Hl & Hr).
    destruct (IH (firstn (t0 + 1) c)) as (l & ->); [lia|].
    destruct (IH (skipn (t0 + 1) c)) as (r & ->); [lia|].
    eauto.
Qed.

(** The result does not depend on the budget, once it is enough. *)
Lemma test_candidate_fuel_indep (fuel1 fuel2 : nat) (c : pystr) :
  length c < fuel1 -> length c < fuel2 ->
  test_candidate_fuel fuel1 c = test_candidate_fuel fuel2 c.
Proof.
  revert fuel2 c. induction fuel1 as [|f1 IH]; intros [|f2] c H1 H2; try lia.
  rewrite !test_candidate_fuel_S.
  destruct (accepts_shape c) eqn:Ha; [reflexivity|].
  destruct (leading_t_shape c) eqn:Hb.
  - apply IH; apply leading_t_branch in Hb; lia.
  - destruct (4 <? length c) eqn:H4; [|reflexivity].
    apply Nat.ltb_lt in H4.
    destruct (split_branch c Ha Hb H4) as (t0 & rest & -> & Hl & Hr).
    rewrite (IH f2 (firstn (t0 + 1) c)), (IH f2 (skipn (t0 + 1) c)) by lia.
    reflexivity.
Qed.

Lemma test_candidate_fuel_eq (fuel : nat) (c : pystr) :
  length c < fuel -> test_candidate_fuel fuel c = Some (test_candidate c).
Proof.
  intros H. unfold test_candidate.
  rewrite (test_candidate_fuel_indep fuel (S (length c)) c) by lia.
  destruct (test_candidate_fuel_enough (S (length c)) c) as (r & ->); [lia|].
  reflexivity.
Qed.

(** [test_candidate] satisfies the recursive equation of the program. *)
Lemma test_candidate_eq (c : pystr) :
  test_candidate c =
  if accepts_shape c then (if negb (all_ggtgg c) then [c] else [])
  else if leading_t_shape c then test_candidate (skipn 1 c)
  else if 4 <? length c then
    match tt_pos c with
    | [] => []
    | t0 :: _ => test_candidate (firstn (t0 + 1) c) ++ test_candidate (skipn (t0 + 1) c)
    end
  else [].
Proof.
  unfold test_candidate at 1. rewrite test_candidate_fuel_S.
  destruct (accepts_shape c) eqn:Ha; [reflexivity|].
  destruct (leading_t_shape c) eqn:Hb.
  - rewrite test_candidate_fuel_eq; [reflexivity|].
    apply leading_t_branch in Hb. lia.
  - destruct (4 <? length c) eqn:H4; [|reflexivity].
    apply Nat.ltb_lt in H4.
    destruct (split_branch c Ha Hb H4) as (t0 & rest & -> & Hl & Hr).
    rewrite !test_candidate_fuel_eq by lia. reflexivity.
Qed.

(** Induction along the calls of [test_candidate]. *)
Lemma test_candidate_ind (P : pystr -> list pystr -> Prop) :
  (forall c, accepts_shape c = true ->
     P c (if negb (all_ggtgg c) then [c] else [])) ->
  (forall c, accepts_shape c = false -> leading_t_shape c = true ->
     P (skipn 1 c) (test_candidate (skipn 1 c)) ->
     P c (test_candidate (skipn 1 c))) ->
  (forall c t0 rest, accepts_shape c = false -> leading_t_shape c = false ->
     4 < length c -> tt_pos c = t0 :: rest ->
     P (firstn (t0 + 1) c) (test_candidate (firstn (t0 + 1) c)) ->
     P (skipn (t0 + 1) c) (test_candidate (skipn (t0 + 1) c)) ->
     P c (test_candidate (firstn (t0 + 1) c) ++ test_candidate (skipn (t0 + 1) c))) ->
  (forall c, accepts_shape c = false -> leading_t_shape c = false ->
     length c <= 4 -> P c []) ->
  forall c, P c (test_candidate c).
Proof.
  intros Hacc Hlead Hsplit Hnone c.
  remember (length c) as n eqn:Hn. revert c Hn.
  induction n as [n IH] using lt_wf_ind. intros c ->.
  rewrite test_candidate_eq.
  destruct (accepts_shape c) eqn:Ha; [now apply Hacc|].
  destruct (leading_t_shape c) eqn:Hb.
  - apply Hlead; auto. apply (IH (length (skipn 1 c))); [|reflexivity].
    now apply leading_t_branch.
  - destruct (4 <? length c) eqn:H4.
    + apply Nat.ltb_lt in H4.
      destruct (split_branch c Ha Hb H4) as (t0 & rest & E & Hl & Hr).
      rewrite E. apply (Hsplit c t0 rest); auto.
      * now apply (IH (length (firstn (t0 + 1) c))).
      * now apply (IH (length (skipn (t0 + 1) c))).
    + apply Nat.ltb_ge in H4. now apply Hnone.
Qed.

(** What every accepted candidate satisfies: the tests of the first branch,
    and it is a piece of the input. *)
Lemma test_candidate_accepted (c k : pystr) :
  In k (test_candidate c) ->
  accepts_shape k = true /\ all_ggtgg k = false /\ infix k c.
Proof.
  revert k. apply (test_candidate_ind
    (fun c r => forall k, In k r -> accepts_shape k = true /\ all_ggtgg k = false /\ infix k c)).
  - intros c0 Ha k Hin. destruct (all_ggtgg c0) eqn:Hg; simpl in Hin; [contradiction|].
    destruct Hin as [<-|[]]. auto with pieces.
  - intros c0 _ _ IH k Hin. apply IH in Hin as (H1 & H2 & H3).
    eauto 6 using infix_trans with pieces.
  - intros c0 t0 rest _ _ _ _ IHl IHr k Hin. apply in_app_or in Hin as [Hin|Hin].
    + apply IHl in Hin as (H1 & H2 & H3). eauto 6 using infix_trans with pieces.
    + apply IHr in Hin as (H1 & H2 & H3). eauto 6 using infix_trans with pieces.
  - intros c0 _ _ _ k [].
Qed.

Lemma accepts_shape_inv (c : pystr) :
  accepts_shape c = true ->
  tt_pos c = [] /\ 4 <= length c /\ char_is c 0 chT = false.
Proof.
  unfold accepts_shape. intros H.
  apply andb_true_iff in H as [H H3]. apply andb_true_iff in H as [H1 H2].
  apply Nat.eqb_eq in H1. apply Nat.leb_le in H2. apply negb_true_iff in H3.
  repeat split; auto. now destruct (tt_pos c).
Qed.

(** ** Properties of the candidate splitter *)

(** C1.  Every candidate that [test_candidate] returns, on any input,
    contains no ["TT"], has at least four nucleotides, does not start with
    ['T'], and is not a pure GGTGG repeat ([all_ggtgg] is false on it). *)
Theorem test_candidate_invariants (c k : pystr) :
  In k (test_candidate c) ->
  ~ infix (str "TT") k /\ 4 <= length k /\ nth_error k 0 <> Some chT /\
  all_ggtgg k = false.
Proof.
  intros Hin. apply test_candidate_accepted in Hin as (Ha & Hg & _).
  apply accepts_shape_inv in Ha as (Htt & Hlen & Hc).
  split; [now apply tt_pos_nil|]. split; [assumption|]. split; [|assumption].
  intros E. unfold char_is in Hc. rewrite E in Hc. discriminate.
Qed.

Lemma test_candidate_invariants_witness :
  In (str "GGTGT") (test_candidate (str "GGTGTTG")) /\
  (~ infix (str "TT") (str "GGTGT") /\ 4 <= length (str "GGTGT") /\
   nth_error (str "GGTGT") 0 <> Some chT /\ all_ggtgg (str "GGTGT") = false).
Proof.
  split.
  - vm_compute. left. reflexivity.
  - apply (test_candidate_invariants (str "GGTGTTG")). vm_compute. left. reflexivity.
Defined.

(** C9.  [test_candidate] terminates on every input: a budget of nested
    calls larger than the length of the input is never used up, and each
    recursive call (one leading ['T'] stripped; the left part up to and
    including the first ['T'] of the first ["TT"]; the right part after it)
    is on a strictly shorter string. *)
Theorem test_candidate_terminates (c : pystr) :
  (forall fuel, length c < fuel ->
     test_candidate_fuel fuel c = Some (test_candidate c)) /\
  (accepts_shape c = false -> leading_t_shape c = true ->
     length (skipn 1 c) < length c) /\
  (accepts_shape c = false -> leading_t_shape c = false -> 4 < length c ->
     exists t0 rest, tt_pos c = t0 :: rest /\
       length (firstn (t0 + 1) c) < length c /\
       length (skipn (t0 + 1) c) < length c).
Proof.
  split; [|split].
  - intros fuel H. now apply test_candidate_fuel_eq.
  - intros _ H. now apply leading_t_branch.
  - apply split_branch.
Qed.

(** C10.  A string of exactly four characters that contains ["TT"] yields
    no candidate: the splitting branch asks for more than four. *)
Theorem test_candidate_len4_tt (c : pystr) :
  length c = 4 -> infix (str "TT") c -> test_candidate c = [].
Proof.
  intros Hlen Htt. rewrite test_candidate_eq.
  assert (E : tt_pos c <> []) by (intros E; now apply tt_pos_nil in E).
  unfold accepts_shape, leading_t_shape.
  destruct (tt_pos c) as [|t0 rest]; [contradiction|]. simpl.
  rewrite Hlen. reflexivity.
Qed.

Lemma test_candidate_len4_tt_witness :
  length (str "GTTG") = 4 /\ infix (str "TT") (str "GTTG") /\
  test_candidate (str "GTTG") = [].
Proof.
  assert (Hlen : length (str "GTTG") = 4) by reflexivity.
  assert (Htt : infix (str "TT") (str "GTTG"))
    by (exists (str "G"), (str "G"); reflexivity).
  split; [exact Hlen|]. split; [exact Htt|].
  exact (test_candidate_len4_tt (str "GTTG") Hlen Htt).
Defined.

(** ** The pattern classifiers *)

Lemma star_nonempty (f : pystr -> list pystr) (n : nat) (s : pystr) :
  star f n s <> [].
Proof.
  destruct n; simpl; [discriminate|].
  intros H. apply app_eq_nil in H as [_ H]. discriminate.
Qed.

Lemma run_lit_cases (k s : pystr) :
  run (lit k) s = [] \/ exists rem, s = k ++ rem /\ run (lit k) s = [rem].
Proof.
  destruct (run (lit k) s) as [|rem rest] eqn:E; [now left|right].
  exists rem. assert (Hs : s = k ++ rem) by (apply run_lit_In; rewrite E; now left).
  split; [assumption|]. rewrite Hs, run_lit_app in E. now injection E as <-.
Qed.

Lemma run_lit_nil (k s : pystr) :
  (forall rem, s <> k ++ rem) -> run (lit k) s = [].
Proof.
  intros H. destruct (run_lit_cases k s) as [E|(rem & Hs & _)]; [assumption|].
  now apply H in Hs.
Qed.

Lemma lang_rep_lit (k w : pystr) :
  lang (Rep (lit k)) w -> exists n, w = repeat_str k n.
Proof.
  intros H. remember (Rep (lit k)) as r eqn:Hr. induction H; try discriminate.
  - now exists 0.
  - injection Hr as ->. destruct (IHlang2 eq_refl) as (n & ->).
    apply lang_lit_inv in H. subst u. now exists (S n).
Qed.

(** The greedy iteration of a literal eats every copy. *)
Lemma star_lit_head (k t : pystr) (n fuel : nat) :
  k <> [] -> run (lit k) t = [] -> n <= fuel ->
  exists rest, star (run (lit k)) fuel (repeat_str k n ++ t) = t :: rest.
Proof.
  intros Hk Ht. revert fuel. induction n as [|n IH]; intros fuel Hn; simpl.
  - destruct fuel; simpl; [now exists []|]. rewrite Ht. simpl. now exists [].
  - destruct fuel as [|fuel]; [lia|]. simpl.
    rewrite <- app_assoc, run_lit_app. simpl.
    replace (length (repeat_str k n ++ t) <? length (k ++ repeat_str k n ++ t))
      with true.
    + destruct (IH fuel) as (rest & ->); [lia|]. simpl. eauto.
    + symmetry. apply Nat.ltb_lt. rewrite (length_app k). destruct k; [congruence|].
      simpl. lia.
Qed.

Lemma repeat_str_length (k : pystr) (n : nat) :
  length (repeat_str k n) = n * length k.
Proof. induction n; simpl; [reflexivity|]. rewrite length_app. lia. Qed.

(** *** Four or more [G] *)

Lemma run_GGGG_plus (s : pystr) :
  run re_GGGG_plus s <> [] <-> exists t, s = str "GGGG" ++ t.
Proof.
  split.
  - intros H. destruct (run re_GGGG_plus s) as [|rem rest] eqn:E; [congruence|].
    destruct (run_sound re_GGGG_plus s rem) as (pre & -> & Hl); [rewrite E; now left|].
    unfold re_GGGG_plus in Hl.
    inversion Hl as [| | |a b u v Hu Hv| | | | |]; subst.
    apply (lang_lit_inv (str "GGG")) in Hu. subst u.
    inversion Hv as [| | |a b u' v' Hu' Hv'| | | | |]; subst.
    inversion Hu'; subst. exists (v' ++ rem). reflexivity.
  - intros (t & ->). unfold re_GGGG_plus.
    change (run (Cat (lit (str "GGG")) (Cat (Lit chG) (Rep (Lit chG)))) (str "GGGG" ++ t))
      with (flat_map (run (Cat (Lit chG) (Rep (Lit chG))))
              (run (lit (str "GGG")) (str "GGG" ++ chG :: t))).
    rewrite run_lit_app. simpl. rewrite app_nil_r, app_nil_r.
    apply star_nonempty.
Qed.

(** [contains_gt4_gs] holds exactly of the strings in which ["GGGG"] occurs. *)
Lemma contains_gt4_gs_iff (s : pystr) :
  contains_gt4_gs s = true <-> infix (str "GGGG") s.
Proof.
  unfold contains_gt4_gs, re_search. split.
  - destruct (search_from re_GGGG_plus 0 s) as [[a b]|] eqn:E; [|discriminate].
    intros _. apply search_from_Some in E as (pre & m & post & -> & _ & _ & _ & (rest & Hr) & _).
    destruct (proj1 (run_GGGG_plus (m ++ post))) as (t & Ht); [rewrite Hr; discriminate|].
    exists pre, t. now rewrite Ht.
  - intros (pre & post & ->).
    destruct (search_from re_GGGG_plus 0 (pre ++ str "GGGG" ++ post)) eqn:E;
      [reflexivity|exfalso].
    rewrite search_from_None in E. specialize (E (length pre)).
    rewrite skipn_app, skipn_all, Nat.sub_diag in E. simpl skipn in E.
    revert E. apply run_GGGG_plus. now exists post.
Qed.

Lemma contains_gt4_gs_infix (k s : pystr) :
  infix k s -> contains_gt4_gs s = false -> contains_gt4_gs k = false.
Proof.
  intros Hks Hs. destruct (contains_gt4_gs k) eqn:Hk; [exfalso|reflexivity].
  apply contains_gt4_gs_iff in Hk.
  assert (H : contains_gt4_gs s = true)
    by (apply contains_gt4_gs_iff; eapply infix_trans; eassumption).
  congruence.
Qed.

Lemma run_Cat (a b : regex) (s : pystr) :
  run (Cat a b) s = flat_map (run b) (run a s).
Proof. reflexivity. Qed.

Lemma run_Rep (a : regex) (s : pystr) :
  run (Rep a) s = star (run a) (length s) s.
Proof. reflexivity. Qed.

(** *** The pure GGTGG repeats *)

(** What [T?$] accepts after ["GTGGTGG"]: nothing, one ['T'], and either
    followed by a final newline. *)
Lemma run_optT_end (rem : pystr) :
  run (Cat (Opt (Lit chT)) Eol) rem <> [] <->
  rem = [] \/ rem = [chT] \/ rem = [newline] \/ rem = [chT; newline].
Proof.
  destruct rem as [|c1 [|c2 [|c3 rem]]]; simpl.
  - split; [auto|discriminate].
  - destruct (Ascii.eqb_spec c1 chT) as [->|H1]; simpl.
    + split; [auto|discriminate].
    + destruct (Ascii.eqb_spec c1 newline) as [->|H2]; simpl.
      * split; [auto|discriminate].
      * split; [congruence|]. intros [H|[H|[H|H]]]; congruence.
  - destruct (Ascii.eqb_spec c1 chT) as [->|H1]; simpl.
    + destruct (Ascii.eqb_spec c2 newline) as [->|H2]; simpl.
      * split; [auto|discriminate].
      * split; [congruence|]. intros [H|[H|[H|H]]]; congruence.
    + split; [congruence|]. intros [H|[H|[H|H]]]; congruence.
  - destruct (Ascii.eqb_spec c1 chT) as [->|H1]; simpl.
    + split; [congruence|]. intros [H|[H|[H|H]]]; congruence.
    + split; [congruence|]. intros [H|[H|[H|H]]]; congruence.
Qed.

Lemma match_GTGGTGG_end (s : pystr) :
  is_some (re_match re_GTGGTGG_end s) = true <->
  s = str "GTGGTGG" \/ s = str "GTGGTGGT" \/
  s = str "GTGGTGG" ++ [newline] \/ s = str "GTGGTGGT" ++ [newline].
Proof.
  assert (Hrun : run re_GTGGTGG_end s <> [] <->
                 exists rem, s = str "GTGGTGG" ++ rem /\
                   (rem = [] \/ rem = [chT] \/ rem = [newline] \/ rem = [chT; newline])).
  { unfold re_GTGGTGG_end.
    change (run (Cat (lit (str "GTGGTGG")) (Cat (Opt (Lit chT)) Eol)) s)
      with (flat_map (run (Cat (Opt (Lit chT)) Eol)) (run (lit (str "GTGGTGG")) s)).
    destruct (run_lit_cases (str "GTGGTGG") s) as [E|(rem & Hs & E)]; rewrite E.
    - split; [intros H; now contradiction H|].
      intros (rem & Hs & _). rewrite Hs, run_lit_app in E. discriminate.
    - cbn [flat_map]. rewrite app_nil_r, run_optT_end. split.
      + intros H. now exists rem.
      + intros (rem' & Hs' & H). rewrite Hs in Hs'.
        apply app_inv_head in Hs'. now subst. }
  unfold re_match. destruct (run re_GTGGTGG_end s) as [|r0 rest] eqn:E; simpl.
  - split; [discriminate|]. intros H. exfalso.
    assert (Hex : exists rem, s = str "GTGGTGG" ++ rem /\
              (rem = [] \/ rem = [chT] \/ rem = [newline] \/ rem = [chT; newline])).
    { destruct H as [-> | [-> | [-> | ->]]].
      - exists []. auto.
      - exists [chT]. auto.
      - exists [newline]. auto.
      - exists [chT; newline]. auto. }
    apply Hrun in Hex. now apply Hex.
  - split; [intros _|reflexivity].
    destruct (proj1 Hrun) as (rem & -> & [-> | [-> | [-> | ->]]]); [discriminate|auto..].
Qed.

Lemma lang_GGT_repeat (m : pystr) :
  lang re_GGT_repeat m ->
  exists n, 2 <= n /\ (m = repeat_str ggt n \/ m = repeat_str ggt n ++ [chG]).
Proof.
  unfold re_GGT_repeat. simpl at_least. intros H.
  inversion H as [| | |a b u v Hu Hv| | | | |]; subst.
  inversion Hu as [| | |a b u1 u' Hu1 Hu'| | | | |]; subst.
  inversion Hu' as [| | |a b u2 w Hu2 Hw| | | | |]; subst.
  apply (lang_lit_inv ggt) in Hu1, Hu2. subst u1 u2.
  apply (lang_rep_lit ggt) in Hw as (n & ->).
  exists (S (S n)). split; [lia|].
  inversion Hv as [| | | |a|a u3 Hu3| | |]; subst.
  - left. now rewrite app_nil_r.
  - right. inversion Hu3; subst. reflexivity.
Qed.

(** On a pure repeat the engine's first match is the whole string. *)
Lemma run_GGT_repeat_full (n : nat) (g : pystr) :
  2 <= n -> g = [] \/ g = [chG] ->
  exists rest, run re_GGT_repeat (repeat_str ggt n ++ g) = [] :: rest.
Proof.
  intros Hn Hg. destruct n as [|[|n]]; try lia.
  assert (Hgt : run (lit ggt) g = []) by (destruct Hg as [-> | ->]; reflexivity).
  destruct (star_lit_head ggt g n (length (repeat_str ggt n ++ g)))
    as (rest & Hstar); [discriminate|assumption| |].
  { rewrite length_app, repeat_str_length. simpl. lia. }
  replace (repeat_str ggt (S (S n)) ++ g)
    with (ggt ++ ggt ++ repeat_str ggt n ++ g)
    by (cbn [repeat_str]; now rewrite <- !app_assoc).
  unfold re_GGT_repeat. cbn [at_least].
  rewrite !run_Cat, run_lit_app. cbn [flat_map]. rewrite app_nil_r.
  rewrite !run_Cat, run_lit_app. cbn [flat_map]. rewrite app_nil_r.
  rewrite run_Rep. change (str "GGT") with ggt. rewrite Hstar. cbn [flat_map].
  destruct Hg as [-> | ->]; simpl; eauto.
Qed.

Lemma whole_GGT_repeat_iff (seq : pystr) :
  whole_GGT_repeat seq = true <->
  exists n, 2 <= n /\ (seq = repeat_str ggt n \/ seq = repeat_str ggt n ++ [chG]).
Proof.
  unfold whole_GGT_repeat, re_search. split.
  - destruct (search_from re_GGT_repeat 0 seq) as [[a b]|] eqn:E; [|discriminate].
    intros H. apply pystr_eqb_eq in H.
    apply search_from_Some in E as (pre & m & post & Hs & -> & -> & Hl & _).
    simpl in H. rewrite Hs, slice_app in H. rewrite <- Hs in H. subst m.
    now apply lang_GGT_repeat.
  - intros (n & Hn & Hs).
    assert (Hrun : exists rest, run re_GGT_repeat seq = [] :: rest).
    { destruct Hs as [-> | ->].
      - rewrite <- (app_nil_r (repeat_str ggt n)). apply run_GGT_repeat_full; auto.
      - apply run_GGT_repeat_full; auto. }
    destruct Hrun as (rest & Hrun).
    rewrite (search_from_head _ _ _ _ 0 Hrun). simpl length. rewrite Nat.sub_0_r.
    simpl plus. rewrite slice_full. apply pystr_eqb_refl.
Qed.

Lemma all_ggtgg_unfold (seq : pystr) :
  all_ggtgg seq =
  pystr_eqb seq (str "GGTGG") || is_some (re_match re_GTGGTGG_end seq)
  || whole_GGT_repeat seq.
Proof.
  unfold all_ggtgg, whole_GGT_repeat.
  destruct (pystr_eqb seq (str "GGTGG") || is_some (re_match re_GTGGTGG_end seq));
    reflexivity.
Qed.

(** C4, as amended.  [all_ggtgg] holds exactly of: ["GGTGG"]; ["GTGGTGG"]
    optionally followed by one ["T"] (and then, as [$] allows, by one final
    newline); and ["GGT"] repeated two or more times, optionally followed by
    one ["G"]. *)
Theorem all_ggtgg_iff (seq : pystr) :
  all_ggtgg seq = true <->
  seq = str "GGTGG" \/
  (seq = str "GTGGTGG" \/ seq = str "GTGGTGGT" \/
   seq = str "GTGGTGG" ++ [newline] \/ seq = str "GTGGTGGT" ++ [newline]) \/
  exists n, 2 <= n /\ (seq = repeat_str ggt n \/ seq = repeat_str ggt n ++ [chG]).
Proof.
  rewrite all_ggtgg_unfold, !orb_true_iff, pystr_eqb_eq, match_GTGGTGG_end,
    whole_GGT_repeat_iff.
  tauto.
Qed.

(** C4, as stated, fails: ["GTGGTGG"] is rejected by [all_ggtgg] as a pure
    repeat although the specification's wording does not cover it, and
    ["GTGGTGGTT"], which the wording covers, is not. *)
Lemma all_ggtgg_spec_counterexample :
  (all_ggtgg (str "GTGGTGG") = true /\ ~ spec_pure_ggtgg_repeat (str "GTGGTGG")) /\
  (all_ggtgg (str "GTGGTGGTT") = false /\ spec_pure_ggtgg_repeat (str "GTGGTGGTT")).
Proof.
  split; split.
  - reflexivity.
  - intros [H|[[H|H]|(n & Hn & H)]]; try discriminate.
    destruct n as [|[|n]]; try lia. destruct H as [H|H]; discriminate.
  - reflexivity.
  - right. left. right. reflexivity.
Qed.

(** ** The motif extractor *)

Lemma lang_rep_cls (cs : list ascii) (w : pystr) :
  lang (Rep (Cls cs)) w -> Forall (fun c => In c cs) w.
Proof.
  intros H. remember (Rep (Cls cs)) as r eqn:Hr. induction H; try discriminate.
  - constructor.
  - injection Hr as ->. inversion H; subst. simpl. constructor; auto.
Qed.

(** A match of [G[GT]{3,}] is a ['G'] followed by three or more of ['G'],
    ['T']. *)
Lemma lang_G_GT3 (m : pystr) :
  lang re_G_GT3 m ->
  exists rest, m = chG :: rest /\ 3 <= length rest /\ Forall is_GT rest.
Proof.
  unfold re_G_GT3. cbn [at_least]. intros H.
  inversion H as [| | |a b u v Hu Hv| | | | |]; subst.
  inversion Hu; subst.
  inversion Hv as [| | |a b u1 v1 Hu1 Hv1| | | | |]; subst.
  inversion Hv1 as [| | |a b u2 v2 Hu2 Hv2| | | | |]; subst.
  inversion Hv2 as [| | |a b u3 v3 Hu3 Hv3| | | | |]; subst.
  inversion Hu1 as [| |c1 cs1 Hc1| | | | | |]; subst.
  inversion Hu2 as [| |c2 cs2 Hc2| | | | | |]; subst.
  inversion Hu3 as [| |c3 cs3 Hc3| | | | | |]; subst.
  apply lang_rep_cls in Hv3.
  assert (Hin : forall c, In c [chG; chT] -> is_GT c).
  { intros c [<-|[<-|[]]]; [now left|now right]. }
  exists (c1 :: c2 :: c3 :: v3). split; [reflexivity|]. split; [simpl; lia|].
  constructor; [auto|]. constructor; [auto|]. constructor; [auto|].
  eapply Forall_impl; [|exact Hv3]. exact Hin.
Qed.

Lemma re_G_GT3_nonempty : ~ lang re_G_GT3 [].
Proof. intros H. apply lang_G_GT3 in H as (rest & H & _). discriminate. Qed.

Lemma slice_slice (s : pystr) (a b c d : nat) :
  c <= d -> d <= b - a ->
  slice (slice s a b) c d = slice s (a + c) (a + d).
Proof.
  intros Hcd Hd. unfold slice.
  rewrite skipn_firstn_comm, firstn_firstn, skipn_skipn.
  replace (Nat.min (d - c) (b - a - c)) with (d - c) by lia.
  replace (a + d - (a + c)) with (d - c) by lia.
  now rewrite (Nat.add_comm c a).
Qed.

(** Loops with an invariant. *)
Lemma for_each_inv {A B : Type} (I : B -> Prop) (body : B -> A -> option B)
      (l : list A) (st : B) :
  I st ->
  (forall st x, In x l -> I st -> exists st', body st x = Some st' /\ I st') ->
  exists st', for_each body l st = Some st' /\ I st'.
Proof.
  revert st. induction l as [|x l IH]; intros st Hst Hbody; simpl.
  - now exists st.
  - destruct (Hbody st x) as (st' & -> & Hst'); [now left|assumption|].
    apply IH; [assumption|]. intros st0 y Hy. apply Hbody. now right.
Qed.

Lemma add_kmer_inv (w : pystr) (ms me : nat) (st : list pystr * list span)
      (k : pystr) :
  ms <= me -> me <= length w -> infix k (slice w ms me) -> accepted k ->
  kmers_inv w st ->
  exists st', add_kmer w (ms, me) st k = Some st' /\ kmers_inv w st'.
Proof.
  intros Hms Hme Hk Hacc [Hpairs Hall]. destruct st as [kmers pos]. simpl in *.
  assert (Htext : length (slice w ms me) = me - ms) by now apply slice_length.
  destruct (pystr_eqb k []) eqn:Hnil; simpl.
  { exists (kmers, pos). now repeat split. }
  destruct (me - ms =? length k) eqn:Hlen.
  - apply Nat.eqb_eq in Hlen. eexists. split; [reflexivity|]. split; simpl.
    + apply Forall2_app; [assumption|]. constructor; [|constructor].
      split; [|split]; simpl; try lia.
      symmetry. apply infix_same_length; [assumption|lia].
    + apply Forall_app. split; [assumption|]. constructor; [assumption|constructor].
  - destruct (search_lit_infix k (slice w ms me) 0 Hk) as (off & b & Hsearch).
    unfold re_search. rewrite Hsearch.
    apply search_lit_Some in Hsearch as (Hslice & -> & Hb).
    eexists. split; [reflexivity|]. split; simpl.
    + apply Forall2_app; [assumption|]. constructor; [|constructor].
      split; [|split]; simpl; try lia.
      rewrite <- Hslice at 2. rewrite slice_slice by lia. f_equal. lia.
    + apply Forall_app. split; [assumption|]. constructor; [assumption|constructor].
Qed.

Lemma add_match_inv (w : pystr) (st : list pystr * list span) (m : span) :
  In m (re_finditer re_G_GT3 w) -> kmers_inv w st ->
  exists st', add_match w st m = Some st' /\ kmers_inv w st'.
Proof.
  destruct m as [ms me]. intros Hin Hst.
  apply (re_finditer_spans re_G_GT3 re_G_GT3_nonempty) in Hin as (Hms & Hme & Hl).
  unfold add_match.
  destruct (contains_gt4_gs (slice w ms me)) eqn:Hg; simpl; [now exists st|].
  destruct (all_ggtgg (slice w ms me)) eqn:Ha; simpl; [now exists st|].
  apply for_each_inv; [assumption|].
  intros st0 k Hk Hst0.
  apply test_candidate_accepted in Hk as (Hshape & Hrep & Hinf).
  apply add_kmer_inv; auto.
  repeat split; auto.
  - eapply contains_gt4_gs_infix; eassumption.
  - apply lang_G_GT3 in Hl as (rest & Hm & _ & Hrest).
    eapply infix_Forall; [exact Hinf|]. rewrite Hm. constructor; [now left|assumption].
Qed.

Lemma find_tg_kmers_inv (w : pystr) :
  exists st, find_tg_kmers w = Some st /\ kmers_inv w st.
Proof.
  unfold find_tg_kmers. apply for_each_inv.
  - split; constructor.
  - intros st m Hm Hst. now apply add_match_inv.
Qed.

Lemma Forall2_nth_error {A B : Type} (R : A -> B -> Prop) (l : list A) (l' : list B)
      (i : nat) (x : A) (y : B) :
  Forall2 R l l' -> nth_error l i = Some x -> nth_error l' i = Some y -> R x y.
Proof.
  intros H. revert i. induction H as [|a b l l' Hab _ IH]; intros [|i] Hx Hy;
    simpl in *; try discriminate.
  - injection Hx as <-. injection Hy as <-. assumption.
  - eapply IH; eassumption.
Qed.

(** C8.  On every window [w], [find_tg_kmers] returns a list of candidates
    and a list of positions of the same length, and the span paired with a
    candidate spells out that candidate: [w[s:e] = k] (with [e - s] the
    length of [k], inside the window). *)
Theorem find_tg_kmers_positions (w : pystr) :
  exists kmers pos,
    find_tg_kmers w = Some (kmers, pos) /\
    length kmers = length pos /\
    forall i k s e,
      nth_error kmers i = Some k -> nth_error pos i = Some (s, e) ->
      slice w s e = k /\ e = s + length k /\ e <= length w.
Proof.
  destruct (find_tg_kmers_inv w) as ([kmers pos] & Hrun & Hpairs & _).
  exists kmers, pos. split; [assumption|]. simpl in Hpairs. split.
  - eapply Forall2_length; eassumption.
  - intros i k s e Hk Hp.
    exact (Forall2_nth_error _ _ _ _ _ _ Hpairs Hk Hp).
Qed.

(** *** Extracting from a candidate *)

Lemma run_cls_GT (x : ascii) (t : pystr) :
  is_GT x -> run (Cls [chG; chT]) (x :: t) = [t].
Proof. intros [-> | ->]; reflexivity. Qed.

(** The greedy iteration of [[GT]] eats a whole run of ['G'] and ['T']. *)
Lemma star_cls_head (s : pystr) (fuel : nat) :
  Forall is_GT s -> length s <= fuel ->
  exists rest, star (run (Cls [chG; chT])) fuel s = [] :: rest.
Proof.
  revert fuel. induction s as [|x t IH]; intros fuel Hs Hlen.
  - destruct fuel; simpl; eauto.
  - destruct fuel as [|fuel]; [simpl in Hlen; lia|].
    inversion Hs as [|x' t' Hx Ht]; subst.
    cbn [star]. rewrite (run_cls_GT x t Hx). cbn [flat_map].
    replace (length t <? length (x :: t)) with true
      by (symmetry; apply Nat.ltb_lt; simpl; lia).
    destruct (IH fuel Ht) as (rest & ->); [simpl in Hlen; lia|].
    simpl. eauto.
Qed.

Lemma run_G_GT3_full (rest : pystr) :
  3 <= length rest -> Forall is_GT rest ->
  exists others, run re_G_GT3 (chG :: rest) = [] :: others.
Proof.
  intros Hlen Hall.
  destruct rest as [|c1 [|c2 [|c3 t]]]; simpl in Hlen; try lia.
  inversion Hall as [|? ? H1 Hall1]; subst.
  inversion Hall1 as [|? ? H2 Hall2]; subst.
  inversion Hall2 as [|? ? H3 Hall3]; subst.
  unfold re_G_GT3. cbn [at_least].
  rewrite run_Cat. change (run (Lit chG) (chG :: c1 :: c2 :: c3 :: t))
    with [c1 :: c2 :: c3 :: t]. cbn [flat_map]. rewrite app_nil_r.
  rewrite run_Cat, (run_cls_GT c1 _ H1). cbn [flat_map]. rewrite app_nil_r.
  rewrite run_Cat, (run_cls_GT c2 _ H2). cbn [flat_map]. rewrite app_nil_r.
  rewrite run_Cat, (run_cls_GT c3 _ H3). cbn [flat_map]. rewrite app_nil_r.
  rewrite run_Rep. apply star_cls_head; auto.
Qed.

Lemma accepted_shape (c : pystr) :
  accepted c ->
  exists rest, c = chG :: rest /\ 3 <= length rest /\ Forall is_GT rest.
Proof.
  intros (Hshape & _ & _ & Hall).
  apply accepts_shape_inv in Hshape as (_ & Hlen & Hc).
  destruct c as [|x rest]; [simpl in Hlen; lia|].
  inversion Hall as [|? ? Hx Hrest]; subst.
  exists rest. split; [|split; [simpl in Hlen; lia|assumption]].
  destruct Hx as [-> | ->]; [reflexivity|discriminate].
Qed.

Lemma accepted_finditer (c : pystr) :
  accepted c -> re_finditer re_G_GT3 c = [(0, length c)].
Proof.
  intros Hacc. destruct (accepted_shape c Hacc) as (rest & -> & Hlen & Hall).
  destruct (run_G_GT3_full rest Hlen Hall) as (others & Hrun).
  rewrite re_finditer_head. unfold re_search.
  rewrite (search_from_head _ _ _ _ 0 Hrun).
  cbn [length plus Nat.sub Nat.eqb skipn].
  rewrite skipn_all. cbn [finditer_from]. reflexivity.
Qed.

Lemma accepted_test_candidate (c : pystr) :
  accepted c -> test_candidate c = [c].
Proof.
  intros (Hshape & Hrep & _). rewrite test_candidate_eq, Hshape, Hrep. reflexivity.
Qed.

Lemma accepted_find_tg_kmers (c : pystr) :
  accepted c -> find_tg_kmers c = Some ([c], [(0, length c)]).
Proof.
  intros Hacc. unfold find_tg_kmers. rewrite (accepted_finditer c Hacc).
  cbn [for_each]. unfold add_match. rewrite slice_full.
  pose proof Hacc as (Hshape & Hrep & Hg & _). rewrite Hg, Hrep. cbn [negb andb].
  rewrite (accepted_test_candidate c Hacc). cbn [for_each]. unfold add_kmer.
  destruct (accepted_shape c Hacc) as (rest & Hc & _).
  replace (pystr_eqb c []) with false by (rewrite Hc; reflexivity).
  cbn [negb]. rewrite Nat.sub_0_r, Nat.eqb_refl. reflexivity.
Qed.

(** C6.  Acceptance is idempotent: a candidate that [find_tg_kmers] returns on
    some window is, on its own text, the one candidate that [find_tg_kmers]
    returns (spanning the whole text), and [test_candidate] returns it
    unchanged. *)
Theorem acceptance_idempotent (w c : pystr) (kmers : list pystr) (pos : list span) :
  find_tg_kmers w = Some (kmers, pos) -> In c kmers ->
  find_tg_kmers c = Some ([c], [(0, length c)]) /\ test_candidate c = [c].
Proof.
  intros Hrun Hin.
  destruct (find_tg_kmers_inv w) as (st & Hrun' & _ & Hall).
  rewrite Hrun in Hrun'. injection Hrun' as <-. simpl in Hall.
  rewrite Forall_forall in Hall. specialize (Hall c Hin).
  split; [now apply accepted_find_tg_kmers|now apply accepted_test_candidate].
Qed.

Lemma acceptance_idempotent_witness :
  find_tg_kmers (str "AGGTGTTG") = Some ([str "GGTGT"], [(1, 6)]) /\
  In (str "GGTGT") [str "GGTGT"] /\
  find_tg_kmers (str "GGTGT") = Some ([str "GGTGT"], [(0, 5)]) /\
  test_candidate (str "GGTGT") = [str "GGTGT"].
Proof.
  assert (Hrun : find_tg_kmers (str "AGGTGTTG") = Some ([str "GGTGT"], [(1, 6)]))
    by reflexivity.
  assert (Hin : In (str "GGTGT") [str "GGTGT"]) by (left; reflexivity).
  split; [exact Hrun|]. split; [exact Hin|].
  exact (acceptance_idempotent (str "AGGTGTTG") (str "GGTGT") _ _ Hrun Hin).
Defined.

(** ** The scorer *)

Lemma of_nat_add (n m : nat) : (of_nat (n + m) == of_nat n + of_nat m)%Q.
Proof. unfold of_nat. rewrite Nat2Z.inj_add, inject_Z_plus. reflexivity. Qed.

Lemma ggtgg_penalty_sum (seq_groups : list pystr) (p acc : Q) :
  (ggtgg_penalty seq_groups p acc == acc + of_nat (ggtgg_count seq_groups) * p)%Q.
Proof.
  unfold ggtgg_penalty, ggtgg_count. revert acc.
  induction seq_groups as [|g l IH]; intros acc; simpl.
  - unfold of_nat. simpl. ring.
  - rewrite IH. rewrite of_nat_add. fold (of_nat (length (re_findall_overlapped re_GGTGG g))).
    ring.
Qed.

Lemma flanking_penalty_sum (pos : list span) (tp : Q) (seq : pystr) (acc : Q) :
  (flanking_penalty pos tp seq acc == acc + of_nat (flanking_count pos seq) * tp)%Q.
Proof.
  unfold flanking_penalty, flanking_count. revert acc.
  induction pos as [|[s e] l IH]; intros acc; simpl.
  - unfold of_nat. simpl. ring.
  - rewrite IH. destruct (flanking_tt seq e); simpl length.
    + change (S (length (filter (fun se : span => flanking_tt seq (snd se)) l)))
        with (1 + length (filter (fun se : span => flanking_tt seq (snd se)) l)).
      rewrite of_nat_add. change (of_nat 1) with 1%Q. ring.
    + reflexivity.
Qed.

Lemma calculate_penalty_sum (seq_groups : list pystr) (p tp : Q) (pos : list span)
      (seq : pystr) :
  (calculate_penalty seq_groups p tp pos seq ==
   of_nat (ggtgg_count seq_groups) * p + of_nat (flanking_count pos seq) * tp)%Q.
Proof.
  unfold calculate_penalty. rewrite flanking_penalty_sum, ggtgg_penalty_sum. ring.
Qed.

Lemma py_get_nat (seq : pystr) (i : nat) : py_get seq (Z.of_nat i) = nth_error seq i.
Proof.
  unfold py_get. replace (Z.of_nat i <? 0)%Z with false
    by (symmetry; apply Z.ltb_ge; lia).
  now rewrite Nat2Z.id.
Qed.

Lemma flanking_tt_iff (seq : pystr) (e : nat) :
  flanking_tt seq e = true <->
  e < length seq /\ nth_error seq e = Some chT /\
  py_get seq (Z.of_nat e - 1) = Some chT.
Proof.
  unfold flanking_tt. rewrite py_get_nat.
  destruct (Nat.ltb_spec e (length seq)) as [Hlt|Hge].
  - rewrite andb_true_iff. split.
    + intros [H1 H2]. split; [assumption|].
      destruct (nth_error seq e) as [x|]; [|discriminate].
      destruct (py_get seq (Z.of_nat e - 1)) as [y|]; [|discriminate].
      apply Ascii.eqb_eq in H1, H2. now subst.
    + intros (_ & -> & ->). now rewrite Ascii.eqb_refl.
  - split; [discriminate|]. intros (H & _). lia.
Qed.

(** C7.  The penalty is the GGTGG part plus [tt_penalty] once for every
    recorded position [(start, end)] that passes the flank test, and the
    test passes exactly when [end < len(seq)], [seq[end]] is ['T'] and
    [seq[end-1]] is ['T'].  In particular a position whose end is the end of
    the window adds nothing. *)
Theorem flanking_tt_penalty (seq_groups : list pystr) (p tp : Q) (pos : list span)
        (seq : pystr) :
  (calculate_penalty seq_groups p tp pos seq ==
   calculate_penalty seq_groups p tp [] seq + of_nat (flanking_count pos seq) * tp)%Q /\
  (forall s e,
     calculate_penalty seq_groups p tp (pos ++ [(s, e)]) seq ==
     calculate_penalty seq_groups p tp pos seq +
     (if flanking_tt seq e then tp else 0))%Q /\
  (forall e, flanking_tt seq e = true <->
     e < length seq /\ nth_error seq e = Some chT /\
     py_get seq (Z.of_nat e - 1) = Some chT) /\
  (forall s e, length seq <= e ->
     (calculate_penalty seq_groups p tp (pos ++ [(s, e)]) seq ==
      calculate_penalty seq_groups p tp pos seq)%Q).
Proof.
  assert (Hstep : forall s e,
     (calculate_penalty seq_groups p tp (pos ++ [(s, e)]) seq ==
      calculate_penalty seq_groups p tp pos seq +
      (if flanking_tt seq e then tp else 0))%Q).
  { intros s e. unfold calculate_penalty, flanking_penalty.
    rewrite fold_left_app. simpl. destruct (flanking_tt seq e); ring. }
  split; [|split; [exact Hstep|split; [apply flanking_tt_iff|]]].
  - rewrite !calculate_penalty_sum. change (flanking_count [] seq) with 0.
    change (of_nat 0) with 0%Q. ring.
  - intros s e Hle. rewrite Hstep.
    replace (flanking_tt seq e) with false; [ring|].
    unfold flanking_tt.
    replace (e <? length seq) with false by (symmetry; apply Nat.ltb_ge; lia).
    reflexivity.
Qed.

(** C5.  With both penalty weights zero the penalty is zero, and the score of
    a window is exactly the sum of the lengths of the candidates that
    [find_tg_kmers] extracts from it. *)
Theorem zero_penalty_score (w : pystr) :
  exists groups pos score,
    find_tg_kmers w = Some (groups, pos) /\
    (calculate_penalty groups 0 0 pos w == 0)%Q /\
    window_score w 0 0 = Some score /\
    (score == of_nat (list_sum (map (@length ascii) groups)))%Q.
Proof.
  destruct (find_tg_kmers_inv w) as ([groups pos] & Hrun & _).
  assert (Hzero : (calculate_penalty groups 0 0 pos w == 0)%Q)
    by (rewrite calculate_penalty_sum; ring).
  exists groups, pos. eexists. split; [exact Hrun|]. split; [exact Hzero|]. split.
  - unfold window_score. rewrite Hrun. reflexivity.
  - rewrite Hzero. unfold score_groups, of_nat. ring.
Qed.

(** ** The window aggregators *)

Lemma window_score_total (w : pystr) (p tp : Q) :
  exists score, window_score w p tp = Some score.
Proof.
  unfold window_score. destruct (find_tg_kmers_inv w) as ([groups pos] & -> & _).
  eauto.
Qed.

Lemma window_score_of (w : pystr) (p tp : Q) :
  window_score w p tp = Some (score_of w p tp).
Proof.
  unfold score_of. destruct (window_score_total w p tp) as (score & ->). reflexivity.
Qed.

(** *** Rounding to an integer *)

(** [round] of a fraction, on the integers. *)
Lemma py_round_frac (n : Z) (d : positive) :
  py_round (n # d) =
  let f := (n / Zpos d)%Z in
  match (2 * (n - f * Zpos d) ?= Zpos d)%Z with
  | Lt => f
  | Gt => (f + 1)%Z
  | Eq => if Z.even f then f else (f + 1)%Z
  end.
Proof.
  unfold py_round. cbn zeta.
  assert (Hf : Qfloor (n # d) = (n / Zpos d)%Z) by reflexivity.
  rewrite Hf.
  assert (Hc : ((n # d) - inject_Z (n / Zpos d) ?= 1 # 2)%Q =
               (2 * (n - n / Zpos d * Zpos d) ?= Zpos d)%Z).
  { unfold Qcompare, Qminus, Qplus, Qopp, inject_Z. simpl Qnum. simpl Qden.
    rewrite Pos.mul_1_r. f_equal; ring. }
  rewrite Hc. reflexivity.
Qed.

Lemma py_round_comp (x y : Q) : (x == y)%Q -> py_round x = py_round y.
Proof.
  intros H. unfold py_round. rewrite (Qfloor_comp x y H).
  assert (Hc : (x - inject_Z (Qfloor y) ?= 1 # 2)%Q = (y - inject_Z (Qfloor y) ?= 1 # 2)%Q)
    by (now rewrite H).
  now rewrite Hc.
Qed.

(** Between a half and one, exclusive, [round] gives one. *)
Lemma py_round_frac_one (n : Z) (d : positive) :
  (Zpos d < 2 * n)%Z -> (n < Zpos d)%Z -> py_round (n # d) = 1%Z.
Proof.
  intros H1 H2. rewrite py_round_frac. cbn zeta.
  rewrite Z.div_small by lia.
  replace (2 * (n - 0 * Zpos d) ?= Zpos d)%Z with Gt; [reflexivity|].
  symmetry. apply Z.compare_gt_iff. lia.
Qed.

(** Up to a half, inclusive, [round] gives no positive number. *)
Lemma py_round_frac_nonpos (n : Z) (d : positive) :
  (2 * n <= Zpos d)%Z -> (py_round (n # d) <= 0)%Z.
Proof.
  intros H. rewrite py_round_frac. cbn zeta.
  destruct (Z.ltb_spec n 0) as [Hneg|Hpos].
  - assert (Hf : (n / Zpos d < 0)%Z) by (apply Z.div_lt_upper_bound; lia).
    destruct (2 * (n - n / Zpos d * Zpos d) ?= Zpos d)%Z; try lia.
    destruct (Z.even (n / Zpos d)); lia.
  - rewrite Z.div_small by lia.
    destruct (Z.compare_spec (2 * (n - 0 * Zpos d)) (Zpos d)) as [E|E|E];
      simpl; lia.
Qed.

(** *** The ratio in double precision *)

Section Binary64.

Local Open Scope Q_scope.

Lemma py_round_le_Z (x : Q) (K : Z) : x <= inject_Z K -> (py_round x <= K)%Z.
Proof.
  destruct x as [n d]. intros H. rewrite py_round_frac. cbn zeta.
  unfold Qle, inject_Z in H. simpl in H.
  pose proof (Z.div_mod n (Zpos d) ltac:(lia)) as Hdm.
  pose proof (Z.mod_pos_bound n (Zpos d) eq_refl) as Hm.
  assert (Hn : (n - n / Zpos d * Zpos d = n mod Zpos d)%Z) by lia.
  rewrite Hn.
  destruct (Z.compare_spec (2 * (n mod Zpos d)) (Zpos d)) as [E|E|E];
    [destruct (Z.even (n / Zpos d))|..]; nia.
Qed.

Lemma py_round_ge_Z (x : Q) (K : Z) : inject_Z K <= x -> (K <= py_round x)%Z.
Proof.
  destruct x as [n d]. intros H. rewrite py_round_frac. cbn zeta.
  unfold Qle, inject_Z in H. simpl in H.
  assert (Hf : (K <= n / Zpos d)%Z) by (apply Z.div_le_lower_bound; lia).
  destruct (2 * (n - n / Zpos d * Zpos d) ?= Zpos d)%Z;
    [destruct (Z.even (n / Zpos d))|..]; lia.
Qed.

(** *** Powers of two *)

Lemma pow2_pos (k : Z) : 0 < 2 ^ k.
Proof. apply Qpower_0_lt. reflexivity. Qed.

Lemma pow2_add (a b : Z) : 2 ^ (a + b) == 2 ^ a * 2 ^ b.
Proof. apply Qpower_plus. discriminate. Qed.

Lemma pow2_Z (k : Z) : (0 <= k)%Z -> 2 ^ k == inject_Z (2 ^ k).
Proof. intros H. symmetry. apply (Zpower_Qpower 2 k H). Qed.

Lemma pow2_cancel (k : Z) : 2 ^ k * 2 ^ (- k) == 1.
Proof. rewrite <- pow2_add, Z.add_opp_diag_r. reflexivity. Qed.

(** *** The nearest multiple of a power of two *)

Lemma round_to_le (f g M : Z) (x : Q) :
  (f <= g)%Z -> x <= inject_Z M * 2 ^ g -> round_to f x <= inject_Z M * 2 ^ g.
Proof.
  intros Hfg Hx. unfold round_to.
  assert (Hg : 2 ^ g == inject_Z (2 ^ (g - f)) * 2 ^ f).
  { rewrite <- pow2_Z by lia. rewrite <- pow2_add. now replace (g - f + f)%Z with g by lia. }
  assert (Hk : (py_round (x * 2 ^ (- f)) <= M * 2 ^ (g - f))%Z).
  { apply py_round_le_Z. rewrite inject_Z_mult.
    apply Qle_trans with (inject_Z M * 2 ^ g * 2 ^ (- f)).
    - apply Qmult_le_compat_r; [assumption|apply Qlt_le_weak, pow2_pos].
    - rewrite Hg. rewrite <- !Qmult_assoc, pow2_cancel. rewrite Qmult_1_r. apply Qle_refl. }
  rewrite Zle_Qle, inject_Z_mult in Hk.
  rewrite Hg, Qmult_assoc.
  apply Qmult_le_compat_r; [assumption|apply Qlt_le_weak, pow2_pos].
Qed.

Lemma round_to_ge (f g M : Z) (x : Q) :
  (f <= g)%Z -> inject_Z M * 2 ^ g <= x -> inject_Z M * 2 ^ g <= round_to f x.
Proof.
  intros Hfg Hx. unfold round_to.
  assert (Hg : 2 ^ g == inject_Z (2 ^ (g - f)) * 2 ^ f).
  { rewrite <- pow2_Z by lia. rewrite <- pow2_add. now replace (g - f + f)%Z with g by lia. }
  assert (Hk : (M * 2 ^ (g - f) <= py_round (x * 2 ^ (- f)))%Z).
  { apply py_round_ge_Z. rewrite inject_Z_mult.
    apply Qle_trans with (inject_Z M * 2 ^ g * 2 ^ (- f)).
    - rewrite Hg. rewrite <- !Qmult_assoc, pow2_cancel. rewrite Qmult_1_r. apply Qle_refl.
    - apply Qmult_le_compat_r; [assumption|apply Qlt_le_weak, pow2_pos]. }
  rewrite Zle_Qle, inject_Z_mult in Hk.
  rewrite Hg, Qmult_assoc.
  apply Qmult_le_compat_r; [assumption|apply Qlt_le_weak, pow2_pos].
Qed.

(** *** The binade of a rational *)

Lemma pow2_frac_le (A B n : Z) (d : positive) :
  (0 <= A)%Z -> (0 <= B)%Z -> (2 ^ A * Zpos d <= n * 2 ^ B)%Z ->
  2 ^ (A - B) <= n # d.
Proof.
  intros HA HB H.
  apply (Qmult_le_r _ _ (2 ^ B) (pow2_pos B)).
  rewrite <- pow2_add. replace (A - B + B)%Z with A by lia.
  rewrite !pow2_Z by assumption.
  unfold Qle, Qmult, inject_Z. simpl. lia.
Qed.

Lemma pow2_frac_gt (A B n : Z) (d : positive) :
  (0 <= A)%Z -> (0 <= B)%Z -> (n * 2 ^ B < 2 ^ A * Zpos d)%Z ->
  n # d < 2 ^ (A - B).
Proof.
  intros HA HB H.
  apply (Qmult_lt_r _ _ (2 ^ B) (pow2_pos B)).
  rewrite <- pow2_add. replace (A - B + B)%Z with A by lia.
  rewrite !pow2_Z by assumption.
  unfold Qlt, Qmult, inject_Z. simpl. lia.
Qed.

Lemma binade_bounds (x : Q) :
  ~ x == 0 -> 2 ^ (binade x - 1) <= Qabs x /\ Qabs x < 2 ^ binade x.
Proof.
  destruct x as [n d]. intros Hx.
  assert (Hn : (0 < Z.abs n)%Z).
  { destruct (Z.eq_dec n 0) as [->|]; [exfalso; apply Hx; reflexivity|lia]. }
  unfold binade, Qabs. cbn [Qnum Qden].
  pose proof (Z.log2_spec (Z.abs n) Hn) as [Hn1 Hn2].
  pose proof (Z.log2_spec (Zpos d) eq_refl) as [Hd1 Hd2].
  pose proof (Z.log2_nonneg (Z.abs n)) as Hbn.
  pose proof (Z.log2_nonneg (Zpos d)) as Hbd.
  set (bn := Z.log2 (Z.abs n)) in *. set (bd := Z.log2 (Zpos d)) in *.
  rewrite <- !Z.add_1_r in Hn2, Hd2.
  rewrite Z.pow_add_r in Hn2, Hd2 by lia. change (2 ^ 1)%Z with 2%Z in *.
  assert (Hpn : (0 < 2 ^ bn)%Z) by (apply Z.pow_pos_nonneg; lia).
  assert (Hpd : (0 < 2 ^ bd)%Z) by (apply Z.pow_pos_nonneg; lia).
  destruct (Z.leb_spec (Zpos d * 2 ^ Z.max (bn - bd) 0)
                       (Z.abs n * 2 ^ Z.max (- (bn - bd)) 0)) as [Ht|Ht].
  - split.
    + replace (bn - bd + 1 - 1)%Z with (Z.max (bn - bd) 0 - Z.max (- (bn - bd)) 0)%Z by lia.
      apply pow2_frac_le; lia.
    + replace (bn - bd + 1)%Z with (bn + 1 - bd)%Z by lia.
      apply pow2_frac_gt; try lia. rewrite Z.pow_add_r by lia.
      change (2 ^ 1)%Z with 2%Z. nia.
  - split.
    + replace (bn - bd - 1)%Z with (bn - (bd + 1))%Z by lia.
      apply pow2_frac_le; try lia. rewrite Z.pow_add_r by lia.
      change (2 ^ 1)%Z with 2%Z. nia.
    + replace (bn - bd)%Z with (Z.max (bn - bd) 0 - Z.max (- (bn - bd)) 0)%Z at 1 by lia.
      apply pow2_frac_gt; lia.
Qed.

Lemma binade_le (x : Q) (E : Z) : ~ x == 0 -> Qabs x < 2 ^ E -> (binade x <= E)%Z.
Proof.
  intros Hx Hlt. destruct (binade_bounds x Hx) as [Hlo _].
  assert (H : 2 ^ (binade x - 1) < 2 ^ E) by (eapply Qle_lt_trans; eassumption).
  apply Qpower_lt_compat_l_inv in H; [lia|reflexivity].
Qed.

Lemma fexp64_mono (e1 e2 : Z) : (e1 <= e2)%Z -> (fexp64 e1 <= fexp64 e2)%Z.
Proof. unfold fexp64. lia. Qed.

(** *** The nearest double *)

(** A number below [2^E] is rounded without overflow, and stays on its side
    of every multiple of a power of two that is at least the last bit of
    that range. *)
Lemma round64_sandwich (x : Q) (E : Z) :
  (0 <= E < 1024)%Z -> Qabs x < 2 ^ E ->
  exists r, round64 x = Some r /\
    Qabs r <= 2 ^ E /\
    forall g M, (fexp64 E <= g)%Z ->
      (x <= inject_Z M * 2 ^ g -> r <= inject_Z M * 2 ^ g) /\
      (inject_Z M * 2 ^ g <= x -> inject_Z M * 2 ^ g <= r).
Proof.
  intros HE Hx. unfold round64.
  destruct (Qeq_bool x 0) eqn:E0.
  - apply Qeq_bool_iff in E0. exists 0. split; [reflexivity|]. split.
    + apply Qlt_le_weak, pow2_pos.
    + intros g M _. rewrite E0. tauto.
  - apply Qeq_bool_neq in E0.
    pose proof (binade_le x E E0 Hx) as Hb.
    pose proof (fexp64_mono _ _ Hb) as Hf.
    set (f := fexp64 (binade x)) in *.
    assert (Hside : forall g M, (fexp64 E <= g)%Z ->
      (x <= inject_Z M * 2 ^ g -> round_to f x <= inject_Z M * 2 ^ g) /\
      (inject_Z M * 2 ^ g <= x -> inject_Z M * 2 ^ g <= round_to f x)).
    { intros g M Hg. split; [apply round_to_le|apply round_to_ge]; lia. }
    assert (HfE : (fexp64 E <= E)%Z) by (unfold fexp64; lia).
    assert (Habs : Qabs (round_to f x) <= 2 ^ E).
    { apply Qabs_Qle_condition.
      apply Qabs_Qlt_condition in Hx as [Hx1 Hx2].
      destruct (Hside E 1%Z HfE) as [Hup _].
      destruct (Hside E (-1)%Z HfE) as [_ Hdown].
      split.
      - setoid_replace (- 2 ^ E) with (inject_Z (-1) * 2 ^ E) by ring.
        apply Hdown. setoid_replace (inject_Z (-1) * 2 ^ E) with (- 2 ^ E) by ring.
        now apply Qlt_le_weak.
      - setoid_replace (2 ^ E) with (inject_Z 1 * 2 ^ E) by ring.
        apply Hup. setoid_replace (inject_Z 1 * 2 ^ E) with (2 ^ E) by ring.
        now apply Qlt_le_weak. }
    exists (round_to f x).
    replace (Qle_bool (2 ^ 1024) (Qabs (round_to f x))) with false.
    + split; [reflexivity|]. split; assumption.
    + symmetry. apply not_true_is_false. intros H. apply Qle_bool_iff in H.
      assert (Hlt : 2 ^ E < 2 ^ 1024) by (apply Qpower_lt_compat_l; [lia|reflexivity]).
      apply (Qlt_irrefl (2 ^ E)).
      eapply Qlt_le_trans; [exact Hlt|]. eapply Qle_trans; eassumption.
Qed.

(** *** When the double has the exact ceiling and rounding *)

Lemma Qfloor_unique (x : Q) (f : Z) :
  inject_Z f <= x -> x < inject_Z f + 1 -> Qfloor x = f.
Proof.
  intros H1 H2. pose proof (Qfloor_le x) as H3. pose proof (Qlt_floor x) as H4.
  rewrite inject_Z_plus in H4. change (inject_Z 1) with 1 in H4.
  assert (Ha : inject_Z (Qfloor x) < inject_Z f + 1) by lra.
  assert (Hb : inject_Z f < inject_Z (Qfloor x) + 1) by lra.
  change 1 with (inject_Z 1) in Ha, Hb. rewrite <- inject_Z_plus in Ha, Hb.
  rewrite <- Zlt_Qlt in Ha, Hb. lia.
Qed.

Lemma Qceiling_unique (x : Q) (c : Z) :
  inject_Z c - 1 < x -> x <= inject_Z c -> Qceiling x = c.
Proof.
  intros H1 H2. pose proof (Qle_ceiling x) as H3. pose proof (Qceiling_lt x) as H4.
  unfold Z.sub in H4. rewrite inject_Z_plus in H4.
  assert (H4' : inject_Z (Qceiling x) - 1 < x) by exact H4.
  assert (Ha : inject_Z (Qceiling x) < inject_Z c + 1) by lra.
  assert (Hb : inject_Z c < inject_Z (Qceiling x) + 1) by lra.
  change 1 with (inject_Z 1) in Ha, Hb. rewrite <- inject_Z_plus in Ha, Hb.
  rewrite <- Zlt_Qlt in Ha, Hb. lia.
Qed.

Lemma half_of_Z (k : Z) : inject_Z (2 * k) * (1 # 2) == inject_Z k.
Proof. rewrite inject_Z_mult. change (inject_Z 2) with 2. ring. Qed.

Lemma half_of_odd (k : Z) : inject_Z (2 * k + 1) * (1 # 2) == inject_Z k + (1 # 2).
Proof.
  rewrite inject_Z_plus, inject_Z_mult. change (inject_Z 2) with 2.
  change (inject_Z 1) with 1. ring.
Qed.

Lemma same_halves_floor (y r : Q) : same_halves y r -> Qfloor r = Qfloor y.
Proof.
  intros H. apply Qfloor_unique.
  - pose proof (Qfloor_le y) as Hf.
    destruct (H (2 * Qfloor y)%Z) as (Hlt & _ & Heq). rewrite half_of_Z in Hlt, Heq.
    destruct (Qlt_le_dec (inject_Z (Qfloor y)) y) as [Hs|Hs].
    + apply Qlt_le_weak. now apply Hlt.
    + assert (E : y == inject_Z (Qfloor y)) by lra. rewrite (Heq E). apply Qle_refl.
  - pose proof (Qlt_floor y) as Hf. rewrite inject_Z_plus in Hf.
    change (inject_Z 1) with 1 in Hf.
    destruct (H (2 * (Qfloor y + 1))%Z) as (_ & Hgt & _). rewrite half_of_Z in Hgt.
    rewrite inject_Z_plus in Hgt. change (inject_Z 1) with 1 in Hgt. now apply Hgt.
Qed.

Lemma same_halves_ceiling (y r : Q) : same_halves y r -> Qceiling r = Qceiling y.
Proof.
  intros H. apply Qceiling_unique.
  - pose proof (Qceiling_lt y) as Hc.
    destruct (H (2 * (Qceiling y - 1))%Z) as (Hlt & _ & _). rewrite half_of_Z in Hlt.
    specialize (Hlt Hc). unfold Z.sub in Hlt. rewrite inject_Z_plus in Hlt. exact Hlt.
  - pose proof (Qle_ceiling y) as Hc.
    destruct (H (2 * Qceiling y)%Z) as (_ & Hgt & Heq). rewrite half_of_Z in Hgt, Heq.
    destruct (Qlt_le_dec y (inject_Z (Qceiling y))) as [Hs|Hs].
    + apply Qlt_le_weak. now apply Hgt.
    + assert (E : y == inject_Z (Qceiling y)) by lra. rewrite (Heq E). apply Qle_refl.
Qed.

Lemma same_halves_round (y r : Q) : same_halves y r -> py_round r = py_round y.
Proof.
  intros H. unfold py_round. rewrite (same_halves_floor y r H).
  set (f := Qfloor y).
  assert (Hc : (r - inject_Z f ?= 1 # 2) = (y - inject_Z f ?= 1 # 2)).
  { destruct (H (2 * f + 1)%Z) as (Hlt & Hgt & Heq). rewrite half_of_odd in Hlt, Hgt, Heq.
    destruct (Qcompare_spec (y - inject_Z f) (1 # 2)) as [E|E|E].
    - apply -> Qeq_alt. assert (E' : y == inject_Z f + (1 # 2)) by lra.
      rewrite (Heq E'). ring.
    - apply -> Qlt_alt. assert (E' : y < inject_Z f + (1 # 2)) by lra.
      specialize (Hgt E'). lra.
    - apply -> Qgt_alt. assert (E' : inject_Z f + (1 # 2) < y) by lra.
      specialize (Hlt E'). lra. }
  now rewrite Hc.
Qed.

(** A ratio of integers keeps a distance of at least [1/(2 step)] from every
    integer and every half that it is not equal to. *)
Lemma frac_gap (a step j : Z) (delta : Q) :
  (0 < step)%Z -> 2 * inject_Z step * delta <= 1 ->
  (inject_Z j * (1 # 2) < inject_Z a / inject_Z step + 1 ->
   inject_Z j * (1 # 2) + delta <= inject_Z a / inject_Z step + 1) /\
  (inject_Z a / inject_Z step + 1 < inject_Z j * (1 # 2) ->
   inject_Z a / inject_Z step + 1 + delta <= inject_Z j * (1 # 2)).
Proof.
  intros Hstep Hd.
  assert (Hs : 0 < inject_Z step) by (change 0 with (inject_Z 0); now rewrite <- Zlt_Qlt).
  assert (Hq : inject_Z a / inject_Z step * inject_Z step == inject_Z a)
    by (field; intros E; rewrite E in Hs; exact (Qlt_irrefl 0 Hs)).
  generalize dependent (inject_Z a / inject_Z step). intros q Hq.
  split; intros H.
  - apply (Qmult_lt_r _ _ (inject_Z step) Hs) in H.
    assert (Hz : inject_Z (j * step) < inject_Z (2 * a + 2 * step)).
    { rewrite inject_Z_plus, !inject_Z_mult. change (inject_Z 2) with 2.
      setoid_replace ((q + 1) * inject_Z step) with (q * inject_Z step + inject_Z step) in H by ring.
      rewrite Hq in H. lra. }
    rewrite <- Zlt_Qlt in Hz.
    assert (Hz' : (j * step + 1 <= 2 * a + 2 * step)%Z) by lia.
    rewrite Zle_Qle, !inject_Z_plus, !inject_Z_mult in Hz'.
    change (inject_Z 2) with 2 in Hz'. change (inject_Z 1) with 1 in Hz'.
    apply (Qmult_le_r _ _ (inject_Z step) Hs).
    setoid_replace ((q + 1) * inject_Z step) with (q * inject_Z step + inject_Z step) by ring.
    rewrite Hq. lra.
  - apply (Qmult_lt_r _ _ (inject_Z step) Hs) in H.
    assert (Hz : inject_Z (2 * a + 2 * step) < inject_Z (j * step)).
    { rewrite inject_Z_plus, !inject_Z_mult. change (inject_Z 2) with 2.
      setoid_replace ((q + 1) * inject_Z step) with (q * inject_Z step + inject_Z step) in H by ring.
      rewrite Hq in H. lra. }
    rewrite <- Zlt_Qlt in Hz.
    assert (Hz' : (2 * a + 2 * step + 1 <= j * step)%Z) by lia.
    rewrite Zle_Qle, !inject_Z_plus, !inject_Z_mult in Hz'.
    change (inject_Z 2) with 2 in Hz'. change (inject_Z 1) with 1 in Hz'.
    apply (Qmult_le_r _ _ (inject_Z step) Hs).
    setoid_replace ((q + 1 + delta) * inject_Z step)
      with (q * inject_Z step + inject_Z step + delta * inject_Z step) by ring.
    rewrite Hq. lra.
Qed.

(** With the difference of the lengths below [2^50] and the step below
    [2^49], the ratio computed in double precision has the ceiling and the
    rounding of the exact ratio. *)
Lemma window_ratio_exact (len window step : Z) :
  (0 < step < 2 ^ 49)%Z -> (Z.abs (len - window) < 2 ^ 50)%Z ->
  exists x, window_ratio len window step = Some x /\
            same_halves (inject_Z (len - window) / inject_Z step + 1) x.
Proof.
  intros HS Ha. set (a := (len - window)%Z) in *.
  set (t := Z.log2_up (2 * step)).
  assert (Ht : (2 * step <= 2 ^ t)%Z /\ (2 ^ t < 4 * step)%Z /\ (1 <= t <= 50)%Z).
  { pose proof (Z.log2_up_spec (2 * step) ltac:(lia)) as [H1 H2]. fold t in H1, H2.
    assert (Hpos : (0 < t)%Z) by (apply Z.log2_up_pos; lia).
    assert (Hle : (t <= 50)%Z) by (apply Z.log2_up_le_pow2; lia).
    replace t with (Z.succ (Z.pred t)) at 2 by lia.
    rewrite Z.pow_succ_r by lia. lia. }
  destruct Ht as (Ht1 & Ht2 & Ht3).
  assert (Hpt : (0 < 2 ^ t)%Z) by (apply Z.pow_pos_nonneg; lia).
  set (delta := 2 ^ (- t)).
  assert (Hd : 0 < delta) by apply pow2_pos.
  assert (Hd1 : inject_Z (2 ^ t) * delta == 1)
    by (unfold delta; rewrite <- pow2_Z by lia; apply pow2_cancel).
  assert (Hds : 2 * inject_Z step * delta <= 1).
  { rewrite <- Hd1. apply Qmult_le_compat_r; [|now apply Qlt_le_weak].
    change 2 with (inject_Z 2). rewrite <- inject_Z_mult, <- Zle_Qle. exact Ht1. }
  assert (Hdh : inject_Z (2 ^ (t - 1)) * delta == 1 # 2).
  { assert (H2 : (2 ^ t = 2 * 2 ^ (t - 1))%Z).
    { replace t with (Z.succ (t - 1)) at 1 by lia. apply Z.pow_succ_r. lia. }
    rewrite H2, inject_Z_mult in Hd1. change (inject_Z 2) with 2 in Hd1. lra. }
  set (E := (53 - t)%Z).
  assert (HE : (0 <= E < 1024)%Z) by (unfold E; lia).
  assert (HfE : (fexp64 E <= - t)%Z) by (unfold fexp64, E; lia).
  assert (HfE0 : (fexp64 E <= 0)%Z) by lia.
  set (K := (Z.abs a / step + 1)%Z).
  assert (HK : (Z.abs a < K * step)%Z).
  { unfold K. pose proof (Z.mul_succ_div_gt (Z.abs a) step ltac:(lia)). lia. }
  assert (HK0 : (1 <= K)%Z).
  { unfold K. pose proof (Z.div_pos (Z.abs a) step ltac:(lia) ltac:(lia)). lia. }
  assert (HKE : (K + 1 < 2 ^ E)%Z).
  { assert (Hm : (Z.abs a / step * step <= Z.abs a)%Z)
      by (rewrite Z.mul_comm; apply Z.mul_div_le; lia).
    assert (H1 : ((K + 1) * 2 ^ t < 2 ^ E * 2 ^ t)%Z).
    { rewrite <- Z.pow_add_r by lia. replace (E + t)%Z with 53%Z by (unfold E; lia).
      apply Z.lt_le_trans with ((K + 1) * (4 * step))%Z.
      - apply Z.mul_lt_mono_pos_l; lia.
      - unfold K. nia. }
    apply Z.mul_lt_mono_pos_r in H1; assumption. }
  assert (HKQ : inject_Z K + 1 < 2 ^ E).
  { rewrite pow2_Z by lia. change 1 with (inject_Z 1). rewrite <- inject_Z_plus.
    now rewrite <- Zlt_Qlt. }
  assert (Hs : 0 < inject_Z step) by (change 0 with (inject_Z 0); rewrite <- Zlt_Qlt; lia).
  assert (Hqs : inject_Z a / inject_Z step * inject_Z step == inject_Z a)
    by (field; intros E0; rewrite E0 in Hs; exact (Qlt_irrefl 0 Hs)).
  assert (Hgap := fun j => frac_gap a step j delta ltac:(lia) Hds).
  unfold window_ratio. rewrite (proj2 (Z.eqb_neq step 0)) by lia. fold a.
  generalize dependent (inject_Z a / inject_Z step). intros q Hqs Hgap.
  assert (Hqb : - inject_Z K < q /\ q < inject_Z K).
  { assert (H1 : inject_Z (- (K * step)) < inject_Z a /\ inject_Z a < inject_Z (K * step))
      by (rewrite <- !Zlt_Qlt; lia).
    rewrite inject_Z_opp, inject_Z_mult in H1. destruct H1 as [H1 H2].
    split; apply (Qmult_lt_r _ _ (inject_Z step) Hs); rewrite Hqs; lra. }
  destruct (round64_sandwich q E HE) as (fl1 & Hfl1 & _ & Hs1).
  { apply Qabs_Qlt_condition. lra. }
  rewrite Hfl1.
  assert (Hfb : - inject_Z K <= fl1 /\ fl1 <= inject_Z K).
  { destruct (Hs1 0%Z K HfE0) as [Hup _]. destruct (Hs1 0%Z (- K)%Z HfE0) as [_ Hdn].
    change (2 ^ 0) with 1 in Hup, Hdn. rewrite inject_Z_opp in Hdn. lra. }
  destruct (round64_sandwich (fl1 + 1) E HE) as (x & Hx & _ & Hs2).
  { apply Qabs_Qlt_condition. lra. }
  exists x. split; [exact Hx|].
  assert (Hshift : forall M, inject_Z (M - 2 ^ t) * delta == inject_Z M * delta - 1).
  { intros M. unfold Z.sub. rewrite inject_Z_plus, inject_Z_opp. lra. }
  assert (Hle : forall M, q + 1 <= inject_Z M * delta -> x <= inject_Z M * delta).
  { intros M H. apply (Hs2 (- t)%Z M HfE). fold delta.
    destruct (Hs1 (- t)%Z (M - 2 ^ t)%Z HfE) as [Hup _]. fold delta in Hup.
    rewrite Hshift in Hup. lra. }
  assert (Hge : forall M, inject_Z M * delta <= q + 1 -> inject_Z M * delta <= x).
  { intros M H. apply (Hs2 (- t)%Z M HfE). fold delta.
    destruct (Hs1 (- t)%Z (M - 2 ^ t)%Z HfE) as [_ Hdn]. fold delta in Hdn.
    rewrite Hshift in Hdn. lra. }
  assert (Hgrid : forall j c, inject_Z (j * 2 ^ (t - 1) + c) * delta ==
                              inject_Z j * (1 # 2) + inject_Z c * delta).
  { intros j c. rewrite inject_Z_plus, inject_Z_mult.
    setoid_replace ((inject_Z j * inject_Z (2 ^ (t - 1)) + inject_Z c) * delta)
      with (inject_Z j * (inject_Z (2 ^ (t - 1)) * delta) + inject_Z c * delta) by ring.
    now rewrite Hdh. }
  intros j. destruct (Hgap j) as [Gup Gdn]. split; [|split].
  - intros H. specialize (Gup H).
    assert (H1 : inject_Z (j * 2 ^ (t - 1) + 1) * delta <= x).
    { apply Hge. rewrite Hgrid. change (inject_Z 1) with 1. lra. }
    rewrite Hgrid in H1. change (inject_Z 1) with 1 in H1. lra.
  - intros H. specialize (Gdn H).
    assert (H1 : x <= inject_Z (j * 2 ^ (t - 1) + -1) * delta).
    { apply Hle. rewrite Hgrid. change (inject_Z (-1)) with (-1 # 1). lra. }
    rewrite Hgrid in H1. change (inject_Z (-1)) with (-1 # 1) in H1. lra.
  - intros H.
    assert (H1 : x <= inject_Z (j * 2 ^ (t - 1) + 0) * delta).
    { apply Hle. rewrite Hgrid. change (inject_Z 0) with 0. lra. }
    assert (H2 : inject_Z (j * 2 ^ (t - 1) + 0) * delta <= x).
    { apply Hge. rewrite Hgrid. change (inject_Z 0) with 0. lra. }
    rewrite Hgrid in H1, H2. change (inject_Z 0) with 0 in H1, H2. lra.
Qed.

(** A sequence at least as long as the window: the ratio is at least one,
    whatever the step. *)
Lemma window_ratio_ge_one (len window step : Z) :
  (0 < step)%Z -> (0 <= len - window < 2 ^ 63)%Z ->
  exists x, window_ratio len window step = Some x /\ 1 <= x.
Proof.
  intros HS Ha. set (a := (len - window)%Z) in *.
  assert (Hs : 0 < inject_Z step) by (change 0 with (inject_Z 0); rewrite <- Zlt_Qlt; lia).
  assert (Hqs : inject_Z a / inject_Z step * inject_Z step == inject_Z a)
    by (field; intros E0; rewrite E0 in Hs; exact (Qlt_irrefl 0 Hs)).
  unfold window_ratio. rewrite (proj2 (Z.eqb_neq step 0)) by lia. fold a.
  generalize dependent (inject_Z a / inject_Z step). intros q Hqs.
  assert (Hq : 0 <= q /\ q <= inject_Z a).
  { assert (H1 : inject_Z 0 <= inject_Z a /\ inject_Z a <= inject_Z (a * step))
      by (rewrite <- !Zle_Qle; nia).
    rewrite inject_Z_mult in H1. change (inject_Z 0) with 0 in H1. destruct H1 as [H1 H2].
    split; apply (Qmult_le_r _ _ (inject_Z step) Hs); rewrite Hqs; lra. }
  assert (Ha63 : inject_Z a < 2 ^ 63) by (rewrite pow2_Z by lia; rewrite <- Zlt_Qlt; lia).
  destruct (round64_sandwich q 63 ltac:(lia)) as (fl1 & Hfl1 & Hb1 & Hs1).
  { apply Qabs_Qlt_condition. lra. }
  rewrite Hfl1.
  assert (H0 : 0 <= fl1).
  { destruct (Hs1 63%Z 0%Z ltac:(unfold fexp64; lia)) as [_ H].
    change (inject_Z 0) with 0 in H. lra. }
  apply Qabs_Qle_condition in Hb1 as [_ Hb1].
  assert (H53 : 2 ^ 53 == 9007199254740992) by reflexivity.
  assert (H63 : 2 ^ 63 == 9223372036854775808) by reflexivity.
  assert (H65 : 2 ^ 65 == 36893488147419103232) by reflexivity.
  destruct (Qlt_le_dec (fl1 + 1) (2 ^ 53)) as [Hlt|Hge].
  - destruct (round64_sandwich (fl1 + 1) 53 ltac:(lia)) as (x & Hx & _ & Hs2).
    { apply Qabs_Qlt_condition. lra. }
    exists x. split; [exact Hx|].
    destruct (Hs2 0%Z 1%Z ltac:(unfold fexp64; lia)) as [_ H].
    change (inject_Z 1 * 2 ^ 0) with (1 * 1) in H. lra.
  - destruct (round64_sandwich (fl1 + 1) 65 ltac:(lia)) as (x & Hx & _ & Hs2).
    { apply Qabs_Qlt_condition. lra. }
    exists x. split; [exact Hx|].
    destruct (Hs2 53%Z 1%Z ltac:(unfold fexp64; lia)) as [_ H].
    change (inject_Z 1) with 1 in H. lra.
Qed.

(** With a step other than zero and a difference of the lengths below
    [2^1022], neither the division nor the addition overflows. *)
Lemma window_ratio_returns (len window step : Z) :
  step <> 0%Z -> (Z.abs (len - window) < 2 ^ 1022)%Z ->
  exists x, window_ratio len window step = Some x.
Proof.
  intros HS Ha. set (a := (len - window)%Z) in *.
  assert (Hs : ~ inject_Z step == 0).
  { intros E0. unfold Qeq in E0. simpl in E0. lia. }
  assert (Hqs : inject_Z a / inject_Z step * inject_Z step == inject_Z a) by (now field).
  unfold window_ratio. rewrite (proj2 (Z.eqb_neq step 0)) by assumption. fold a.
  generalize dependent (inject_Z a / inject_Z step). intros q Hqs.
  assert (Hp : 0 < inject_Z (Z.abs step))
    by (change 0 with (inject_Z 0); rewrite <- Zlt_Qlt; lia).
  assert (Hb : exists b, q * inject_Z (Z.abs step) == inject_Z b /\ Z.abs b = Z.abs a).
  { destruct (Z.lt_trichotomy step 0) as [H|[H|H]]; [|lia|].
    - exists (- a)%Z. split; [|lia].
      replace (Z.abs step) with (- step)%Z by lia. rewrite !inject_Z_opp.
      setoid_replace (q * - inject_Z step) with (- (q * inject_Z step)) by ring.
      now rewrite Hqs.
    - exists a. split; [|lia]. now replace (Z.abs step) with step by lia. }
  destruct Hb as (b & Hb & Hab).
  assert (Hq : - inject_Z (Z.abs a) <= q /\ q <= inject_Z (Z.abs a)).
  { assert (H1 : inject_Z (- (Z.abs a * Z.abs step)) <= inject_Z b /\
                 inject_Z b <= inject_Z (Z.abs a * Z.abs step))
      by (rewrite <- !Zle_Qle; nia).
    rewrite inject_Z_opp, inject_Z_mult in H1. destruct H1 as [H1 H2].
    split; apply (Qmult_le_r _ _ (inject_Z (Z.abs step)) Hp); rewrite Hb; lra. }
  assert (HA : inject_Z (Z.abs a) < 2 ^ 1022)
    by (rewrite pow2_Z by lia; now rewrite <- Zlt_Qlt).
  destruct (round64_sandwich q 1022 ltac:(lia)) as (fl1 & Hfl1 & Hb1 & _).
  { apply Qabs_Qlt_condition. lra. }
  rewrite Hfl1. apply Qabs_Qle_condition in Hb1.
  assert (Hpow : 2 ^ 1022 + 1 < 2 ^ 1023) by (vm_compute; reflexivity).
  destruct (round64_sandwich (fl1 + 1) 1023 ltac:(lia)) as (x & Hx & _).
  { apply Qabs_Qlt_condition. lra. }
  now exists x.
Qed.

End Binary64.

(** *** The number of windows *)

(** For a positive step the exact ratio is [(len - window + step) / step]. *)
Lemma exact_ratio_frac (len window step : Z) :
  (0 < step)%Z ->
  (inject_Z (len - window) / inject_Z step + 1 ==
   (len - window + step) # (Z.to_pos step))%Q.
Proof.
  intros Hstep. destruct step as [|s|s]; try lia.
  unfold Qeq, Qdiv, Qinv, Qmult, Qplus, inject_Z. simpl.
  rewrite ?Pos.mul_1_r, ?Z.mul_1_r. ring.
Qed.

(** Within the bounds the ratio is computed, and its ceiling and its
    rounding are those of the exact ratio. *)
Lemma window_ratio_counts (len window step : Z) :
  (0 < step < 2 ^ 49)%Z -> (Z.abs (len - window) < 2 ^ 50)%Z ->
  exists x,
    window_ratio len window step = Some x /\
    Qceiling x = Qceiling ((len - window + step) # (Z.to_pos step)) /\
    py_round x = py_round ((len - window + step) # (Z.to_pos step)).
Proof.
  intros Hstep Hd.
  destruct (window_ratio_exact len window step Hstep Hd) as (x & Hx & Hsame).
  pose proof (exact_ratio_frac len window step (proj1 Hstep)) as Hq.
  exists x. split; [exact Hx|]. split.
  - rewrite (same_halves_ceiling _ _ Hsame). now apply Qceiling_comp.
  - rewrite (same_halves_round _ _ Hsame). now apply py_round_comp.
Qed.

Lemma ceiling_bounds (x : Q) (n : Z) (d : positive) :
  (x == n # d)%Q ->
  ((Qceiling x - 1) * Zpos d < n /\ n <= Qceiling x * Zpos d)%Z.
Proof.
  intros Hx. pose proof (Qceiling_lt x) as Hlt. pose proof (Qle_ceiling x) as Hle.
  rewrite Hx in Hlt at 2. rewrite Hx in Hle at 1.
  unfold Qlt, Qle, inject_Z in *. simpl in *. lia.
Qed.

(** With a positive step, [range(0, n*step, step)] is [0, step, ...], [n]
    offsets (none when [n] is not positive). *)
Lemma py_range0_windows (n step : Z) :
  (0 < step)%Z ->
  py_range0 (n * step) step =
  Some (map (fun k => (Z.of_nat k * step)%Z) (seq 0 (Z.to_nat n))).
Proof.
  intros Hstep. unfold py_range0.
  replace (step =? 0)%Z with false by (symmetry; apply Z.eqb_neq; lia).
  replace (0 <? step)%Z with true by (symmetry; apply Z.ltb_lt; lia).
  destruct (Z.ltb_spec 0 (n * step)) as [Hpos|Hneg].
  - assert (Hn : (0 < n)%Z) by nia.
    assert (Hdiv : ((n * step - 1) / step = n - 1)%Z).
    { symmetry. apply (Z.div_unique_pos _ _ _ (step - 1)); [lia|ring]. }
    rewrite Hdiv. do 3 f_equal. lia.
  - assert (Hn : (n <= 0)%Z) by nia.
    replace (Z.to_nat n) with (Z.to_nat 0) by lia. reflexivity.
Qed.

Lemma py_slice_length (seq : pystr) (i window : Z) :
  (0 <= i)%Z -> (0 < window)%Z ->
  let L := Z.of_nat (length seq) in
  Z.of_nat (length (py_slice seq i (i + window))) =
  (Z.min (i + window) L - Z.min i L)%Z.
Proof.
  intros Hi Hw L. unfold py_slice, py_clamp, slice. fold L.
  replace (i <? 0)%Z with false by (symmetry; apply Z.ltb_ge; lia).
  replace (i + window <? 0)%Z with false by (symmetry; apply Z.ltb_ge; lia).
  rewrite length_firstn, length_skipn. unfold L. lia.
Qed.

Lemma py_slice_whole (seq : pystr) (window : Z) :
  (Z.of_nat (length seq) <= window)%Z -> py_slice seq 0 (0 + window) = seq.
Proof.
  intros Hw. unfold py_slice, py_clamp, slice.
  change (0 <? 0)%Z with false. cbv iota.
  replace (0 + window <? 0)%Z with false by (symmetry; apply Z.ltb_ge; lia).
  replace (Z.min 0 (Z.of_nat (length seq))) with 0%Z by lia.
  replace (Z.min (0 + window) (Z.of_nat (length seq))) with (Z.of_nat (length seq))
    by lia.
  rewrite Nat2Z.id. simpl. rewrite Nat.sub_0_r. apply firstn_all.
Qed.

Lemma for_each_append {A B : Type} (f : A -> B) (body : list B -> A -> option (list B))
      (l : list A) (acc : list B) :
  (forall acc i, body acc i = Some (acc ++ [f i])) ->
  for_each body l acc = Some (acc ++ map f l).
Proof.
  intros Hbody. revert acc. induction l as [|i l IH]; intros acc; simpl.
  - now rewrite app_nil_r.
  - rewrite Hbody, IH, <- app_assoc. reflexivity.
Qed.

(** The signal is one row for each offset of the range. *)
Lemma calc_score_over_windows_offsets (seq : pystr) (chrom : string) (start : Z)
      (p tp : Q) (window step : Z) (strand : string) (x : Q) (offsets : list Z) :
  window_ratio (Z.of_nat (length seq)) window step = Some x ->
  py_range0 (Qceiling x * step) step = Some offsets ->
  calc_score_over_windows seq chrom start p tp window step strand =
  Some (map (signal_row seq chrom start p tp window strand) offsets).
Proof.
  intros Hx Hr. unfold calc_score_over_windows. rewrite Hx. cbv zeta. rewrite Hr.
  apply (for_each_append (signal_row seq chrom start p tp window strand)).
  intros acc i. rewrite window_score_of. unfold signal_row.
  destruct (String.eqb strand "+"); reflexivity.
Qed.

(** Signal mode with a positive step: one row for each of the
    [max 0 (ceil ratio)] offsets [0, step, 2*step, ...]. *)
Lemma calc_score_over_windows_rows (seq : pystr) (chrom : string) (start : Z)
      (p tp : Q) (window step : Z) (strand : string) (x : Q) :
  (0 < step)%Z ->
  window_ratio (Z.of_nat (length seq)) window step = Some x ->
  calc_score_over_windows seq chrom start p tp window step strand =
  Some (map (signal_row seq chrom start p tp window strand)
            (window_offsets (Qceiling x) step)).
Proof.
  intros Hstep Hx.
  apply (calc_score_over_windows_offsets seq chrom start p tp window step strand x);
    [assumption|].
  unfold window_offsets. now apply py_range0_windows.
Qed.

(** Conversely, a signal that is returned is made of these rows. *)
Lemma calc_score_over_windows_run (seq : pystr) (chrom : string) (start : Z)
      (p tp : Q) (window step : Z) (strand : string) (rows : list scored_window) :
  calc_score_over_windows seq chrom start p tp window step strand = Some rows ->
  exists x offsets,
    window_ratio (Z.of_nat (length seq)) window step = Some x /\
    py_range0 (Qceiling x * step) step = Some offsets /\
    rows = map (signal_row seq chrom start p tp window strand) offsets.
Proof.
  intros Hrun.
  destruct (window_ratio (Z.of_nat (length seq)) window step) as [x|] eqn:Hx.
  2: { unfold calc_score_over_windows in Hrun. rewrite Hx in Hrun. discriminate. }
  destruct (py_range0 (Qceiling x * step) step) as [offsets|] eqn:Hr.
  2: { unfold calc_score_over_windows in Hrun. rewrite Hx in Hrun. cbv zeta in Hrun.
       rewrite Hr in Hrun. discriminate. }
  exists x, offsets. split; [reflexivity|]. split; [exact Hr|].
  rewrite (calc_score_over_windows_offsets seq chrom start p tp window step strand
             x offsets Hx Hr) in Hrun.
  now injection Hrun.
Qed.

(** C2, as amended.  For a window, a step and a length of the sequence that
    are positive and below [2^49] (so that the ratio computed in double
    precision has the ceiling of the exact ratio), the signal mode produces
    [max 0 (ceil ((L - W)/S + 1))] scored windows (none when the ceiling is
    negative).  On the ['+'] strand the end of every window is at most
    [start + max L (L + S - W - 1)]; it never exceeds [start + L] when the
    step is at most one more than the window. *)
Theorem signal_window_count (seq : pystr) (chrom : string) (start : Z)
        (p tp : Q) (window step : Z) (strand : string) :
  (0 < window < 2 ^ 49)%Z -> (0 < step < 2 ^ 49)%Z ->
  (Z.of_nat (length seq) < 2 ^ 49)%Z ->
  exists rows,
    calc_score_over_windows seq chrom start p tp window step strand = Some rows /\
    Z.of_nat (length rows) =
      Z.max 0 (Qceiling (inject_Z (Z.of_nat (length seq) - window) / inject_Z step + 1)) /\
    (strand = "+"%string -> forall r, In r rows ->
       (sw_end r <= start + Z.max (Z.of_nat (length seq))
                                  (Z.of_nat (length seq) + step - window - 1))%Z) /\
    (strand = "+"%string -> (step <= window + 1)%Z -> forall r, In r rows ->
       (sw_end r <= start + Z.of_nat (length seq))%Z).
Proof.
  intros Hw Hstep Hlen.
  destruct (window_ratio_counts (Z.of_nat (length seq)) window step)
    as (x & Hx & Hc & _); [lia|lia|].
  pose proof (calc_score_over_windows_rows seq chrom start p tp window step strand x
                (proj1 Hstep) Hx) as Hrows.
  pose proof (exact_ratio_frac (Z.of_nat (length seq)) window step (proj1 Hstep)) as Hq.
  destruct (ceiling_bounds _ _ _
              (Qeq_refl ((Z.of_nat (length seq) - window + step) # Z.to_pos step)))
    as [Hlt _].
  rewrite <- Hc, Z2Pos.id in Hlt by lia.
  assert (Hend : strand = "+"%string -> forall r,
    In r (map (signal_row seq chrom start p tp window strand)
           (window_offsets (Qceiling x) step)) ->
    (sw_end r <= start + Z.max (Z.of_nat (length seq))
                               (Z.of_nat (length seq) + step - window - 1))%Z).
  { intros -> r Hr.
    apply in_map_iff in Hr as (i & <- & Hi).
    apply in_map_iff in Hi as (k & <- & Hk). apply in_seq in Hk.
    assert (Hi : (0 <= Z.of_nat k * step <=
                  Z.of_nat (length seq) - window + step - 1)%Z) by nia.
    unfold signal_row. simpl.
    rewrite py_slice_length by lia. lia. }
  eexists. split; [exact Hrows|]. split; [|split].
  - unfold window_offsets. rewrite !length_map, length_seq, (Qceiling_comp _ _ Hq), <- Hc.
    lia.
  - exact Hend.
  - intros Hs Hsw r Hr. specialize (Hend Hs r Hr). lia.
Qed.

Lemma signal_window_count_witness :
  (0 < 8 < 2 ^ 49)%Z /\ (0 < 4 < 2 ^ 49)%Z /\
  (Z.of_nat (length (str "GTGTGGTAAGGTGTTG")) < 2 ^ 49)%Z /\
  exists rows,
    calc_score_over_windows (str "GTGTGGTAAGGTGTTG") "chr1" 100 1 1 8 4 "+" = Some rows /\
    Z.of_nat (length rows) =
      Z.max 0 (Qceiling (inject_Z (Z.of_nat (length (str "GTGTGGTAAGGTGTTG")) - 8) /
                         inject_Z 4 + 1)) /\
    ("+"%string = "+"%string -> forall r, In r rows ->
       (sw_end r <= 100 + Z.max (Z.of_nat (length (str "GTGTGGTAAGGTGTTG")))
                                (Z.of_nat (length (str "GTGTGGTAAGGTGTTG")) + 4 - 8 - 1))%Z) /\
    ("+"%string = "+"%string -> (4 <= 8 + 1)%Z -> forall r, In r rows ->
       (sw_end r <= 100 + Z.of_nat (length (str "GTGTGGTAAGGTGTTG")))%Z).
Proof.
  assert (H8 : (0 < 8 < 2 ^ 49)%Z) by (split; reflexivity).
  assert (H4 : (0 < 4 < 2 ^ 49)%Z) by (split; reflexivity).
  assert (HL : (Z.of_nat (length (str "GTGTGGTAAGGTGTTG")) < 2 ^ 49)%Z) by reflexivity.
  split; [exact H8|]. split; [exact H4|]. split; [exact HL|].
  exact (signal_window_count (str "GTGTGGTAAGGTGTTG") "chr1" 100 1 1 8 4 "+" H8 H4 HL).
Defined.

(** C2, as stated, fails twice.  An empty sequence with window 2 and step 1
    gives no window, while the ceiling is -1; and a sequence of ten
    nucleotides with window 1 and step 7 gives three windows, the last of
    which ends at 14, beyond the sequence. *)
Lemma signal_window_count_counterexample :
  (calc_score_over_windows [] "chr1" 0 0 0 2 1 "+" = Some [] /\
   Qceiling (inject_Z (Z.of_nat (length (@nil ascii)) - 2) / inject_Z 1 + 1) = (-1)%Z) /\
  (calc_score_over_windows (str "AAAAAAAAAA") "chr1" 0 0 0 1 7 "+" =
     Some [mk_scored_window "chr1" 0 1 0;
           mk_scored_window "chr1" 7 8 0;
           mk_scored_window "chr1" 14 14 0] /\
   (0 + Z.of_nat (length (str "AAAAAAAAAA")) < 14)%Z).
Proof.
  split; split; reflexivity.
Qed.

(** *** The max mode *)

Lemma max_loop (seq : pystr) (p tp : Q) (window : Z) (offsets : list Z) (st : npfloat) :
  for_each
    (fun max_score i =>
       match window_score (py_slice seq i (i + window)) p tp with
       | Some score => Some (max_step max_score score)
       | None => None
       end) offsets st =
  Some (fold_left max_step (map (score_at seq p tp window) offsets) st).
Proof.
  revert st. induction offsets as [|i l IH]; intros st; simpl; [reflexivity|].
  rewrite window_score_of. apply IH.
Qed.

(** The max mode with a positive step: the running maximum over the
    [max 0 (round ratio)] windows at the offsets [0, step, 2*step, ...]. *)
Lemma calc_max_score_over_windows_rows (seq : pystr) (p tp : Q) (window step : Z)
      (x : Q) :
  (0 < step)%Z ->
  window_ratio (Z.of_nat (length seq)) window step = Some x ->
  calc_max_score_over_windows seq p tp window step =
  Some (max_over (map (score_at seq p tp window) (window_offsets (py_round x) step))).
Proof.
  intros Hstep Hx. unfold calc_max_score_over_windows. rewrite Hx. cbv zeta.
  rewrite py_range0_windows by assumption. apply max_loop.
Qed.

(** C3, as amended.  In the max mode, with a window and a positive step
    below [2^49], a sequence shorter than the window is scored as one
    window, and that score is returned, exactly when twice the shortfall is
    less than the step; in the other case no window is scored and the result
    is NaN. *)
Theorem max_short_sequence (seq : pystr) (p tp : Q) (window step : Z) :
  (Z.of_nat (length seq) < window)%Z -> (window < 2 ^ 49)%Z ->
  (0 < step < 2 ^ 49)%Z ->
  ((2 * (window - Z.of_nat (length seq)) < step)%Z ->
     exists score,
       window_score (py_slice seq 0 (0 + window)) p tp = Some score /\
       py_slice seq 0 (0 + window) = seq /\
       calc_max_score_over_windows seq p tp window step = Some (fin score)) /\
  ((step <= 2 * (window - Z.of_nat (length seq)))%Z ->
     calc_max_score_over_windows seq p tp window step = Some nan).
Proof.
  intros Hshort Hw Hstep.
  destruct (window_ratio_counts (Z.of_nat (length seq)) window step)
    as (x & Hx & _ & Hr); [lia|lia|].
  rewrite (calc_max_score_over_windows_rows seq p tp window step x (proj1 Hstep) Hx).
  unfold window_offsets. rewrite Hr. split.
  - intros Hnear.
    rewrite py_round_frac_one by (rewrite ?Z2Pos.id; lia).
    destruct (window_score_total (py_slice seq 0 (0 + window)) p tp) as (score & Hs).
    exists score. split; [assumption|]. split; [apply py_slice_whole; lia|].
    unfold max_over, score_at, score_of. simpl. simpl in Hs. rewrite Hs. reflexivity.
  - intros Hfar.
    assert (Hn : (py_round ((Z.of_nat (length seq) - window + step) # Z.to_pos step) <= 0)%Z)
      by (apply py_round_frac_nonpos; rewrite Z2Pos.id; lia).
    replace (Z.to_nat _) with 0 by lia. reflexivity.
Qed.

Lemma max_short_sequence_witness :
  (Z.of_nat (length (str "GGTG")) < 5)%Z /\ (5 < 2 ^ 49)%Z /\ (0 < 3 < 2 ^ 49)%Z /\
  ((2 * (5 - Z.of_nat (length (str "GGTG"))) < 3)%Z ->
     exists score,
       window_score (py_slice (str "GGTG") 0 (0 + 5)) 1 1 = Some score /\
       py_slice (str "GGTG") 0 (0 + 5) = str "GGTG" /\
       calc_max_score_over_windows (str "GGTG") 1 1 5 3 = Some (fin score)) /\
  ((3 <= 2 * (5 - Z.of_nat (length (str "GGTG"))))%Z ->
     calc_max_score_over_windows (str "GGTG") 1 1 5 3 = Some nan).
Proof.
  assert (H1 : (Z.of_nat (length (str "GGTG")) < 5)%Z) by reflexivity.
  assert (H2 : (5 < 2 ^ 49)%Z) by reflexivity.
  assert (H3 : (0 < 3 < 2 ^ 49)%Z) by (split; reflexivity).
  split; [exact H1|]. split; [exact H2|]. split; [exact H3|].
  exact (max_short_sequence (str "GGTG") 1 1 5 3 H1 H2 H3).
Defined.

(** C3, as stated, fails: with the default window of 100 and step of 1, the
    sequence ["GGTG"] is shorter than the window, its one truncated window
    scores 4, and the max mode returns NaN. *)
Lemma max_short_sequence_counterexample :
  (Z.of_nat (length (str "GGTG")) < 100)%Z /\
  window_score (py_slice (str "GGTG") 0 (0 + 100)) 0 0 = Some 4%Q /\
  calc_max_score_over_windows (str "GGTG") 0 0 100 1 = Some nan.
Proof.
  split; [reflexivity|]. split; reflexivity.
Qed.

(** *** Beyond the bounds

    Where the window or the step is too large for the ratio to be exact in
    double precision, the counts are those of the double. *)

(** The largest double and one: the sum is the largest double again, so
    that the addition of the ratio does not overflow. *)
Example round64_largest :
  round64 (inject_Z ((2 ^ 53 - 1) * 2 ^ 971) + 1) = Some (inject_Z ((2 ^ 53 - 1) * 2 ^ 971)).
Proof. vm_compute. reflexivity. Qed.

(** A step of [10^17] on five nucleotides with a window of four: the
    quotient [1e-17] is lost in the addition, the ratio is [1.0], and the
    signal has one row where the exact ceiling is two. *)
Example calc_score_over_windows_large_step :
  calc_score_over_windows (str "GGTGT") "chr1" 0 0 0 4 (10 ^ 17) "+" =
    Some [mk_scored_window "chr1" 0 4 4] /\
  Qceiling (inject_Z (Z.of_nat (length (str "GGTGT")) - 4) / inject_Z (10 ^ 17) + 1) = 2%Z.
Proof. split; vm_compute; reflexivity. Qed.

(** A window and a step of [10^17] on one nucleotide: the ratio is [0.0]
    and the signal is empty. *)
Example calc_score_over_windows_large_window :
  calc_score_over_windows (str "G") "chr1" 0 0 0 (10 ^ 17) (10 ^ 17) "+" = Some [].
Proof. vm_compute. reflexivity. Qed.

(** A shortfall of [10^17] with a step of [2*10^17 + 1]: the ratio is
    [0.5], which rounds to zero, where the exact ratio rounds to one. *)
Example calc_max_score_over_windows_large_step :
  calc_max_score_over_windows (str "GGTG") 0 0 (4 + 10 ^ 17) (2 * 10 ^ 17 + 1) = Some nan /\
  py_round (inject_Z (Z.of_nat (length (str "GGTG")) - (4 + 10 ^ 17)) /
            inject_Z (2 * 10 ^ 17 + 1) + 1) = 1%Z.
Proof. split; vm_compute; reflexivity. Qed.

(** A window of [10^400], or of [-10^400]: the division overflows and both
    modes raise. *)
Example aggregators_overflow :
  calc_score_over_windows (str "GGTG") "chr1" 0 0 0 (10 ^ 400) 1 "+" = None /\
  calc_max_score_over_windows (str "GGTG") 0 0 (10 ^ 400) 1 = None /\
  calc_score_over_windows (str "GGTG") "chr1" 0 0 0 (- 10 ^ 400) 1 "+" = None /\
  calc_max_score_over_windows (str "GGTG") 0 0 (- 10 ^ 400) 1 = None.
Proof. repeat split; vm_compute; reflexivity. Qed.

(** ** Worked examples *)

(** The matches of [finditer] do not overlap; those of [findall] with
    [overlapped=True] do. *)
Example finditer_TT_run : re_finditer re_TT (str "GTTTG") = [(1, 3)].
Proof. reflexivity. Qed.

Example findall_GGTGG_overlap :
  re_findall_overlapped re_GGTGG (str "GGTGGTGG") = [str "GGTGG"; str "GGTGG"].
Proof. reflexivity. Qed.

(** The pure repeats are not candidates. *)
Example test_candidate_GGTGG : test_candidate (str "GGTGG") = [].
Proof. reflexivity. Qed.

Example test_candidate_GTGGTGGT : test_candidate (str "GTGGTGGT") = [].
Proof. reflexivity. Qed.

(** A run of [G] alone is rejected whole. *)
Example find_tg_kmers_all_G : find_tg_kmers (str "GGGGG") = Some ([], []).
Proof. reflexivity. Qed.

(** ["GGTGGTGGTGGT"] is a pure repeat: no candidate, score 0. *)
Example window_score_pure_repeat :
  find_tg_kmers (str "GGTGGTGGTGGT") = Some ([], []) /\
  window_score (str "GGTGGTGGTGGT") 0 0 = Some 0%Q.
Proof. split; reflexivity. Qed.

(** ["GGTTTGGTTGGT"] breaks at every ["TT"] into pieces that are all too
    short. *)
Example test_candidate_all_short : test_candidate (str "GGTTTGGTTGGT") = [].
Proof. reflexivity. Qed.

(** A fragment that occurs twice in its match is recorded twice at the
    offset of its first occurrence. *)
Example find_tg_kmers_duplicate :
  find_tg_kmers (str "GTGTTGTGT") =
  Some ([str "GTGT"; str "GTGT"], [(0, 4); (0, 4)]).
Proof. reflexivity. Qed.

(** A candidate cut at a ["TT"] break pays the flank penalty. *)
Example window_score_flank :
  find_tg_kmers (str "AGGTGTTG") = Some ([str "GGTGT"], [(1, 6)]) /\
  window_score (str "AGGTGTTG") 1 1 = Some 4%Q.
Proof. split; reflexivity. Qed.

(** ** Further properties: where the candidates lie *)

Lemma scattered_prefix (a : pystr) (ks : list pystr) (s : pystr) :
  scattered ks s -> scattered ks (a ++ s).
Proof.
  intros H. destruct H as [s|gap k ks s H]; [constructor|].
  rewrite app_assoc. now constructor.
Qed.

Lemma scattered_app (ks1 ks2 : list pystr) (a b : pystr) :
  scattered ks1 a -> scattered ks2 b -> scattered (ks1 ++ ks2) (a ++ b).
Proof.
  intros H1 H2. induction H1 as [s|gap k ks s H1 IH]; simpl.
  - now apply scattered_prefix.
  - rewrite <- !app_assoc. now constructor.
Qed.

Lemma scattered_suffix (ks : list pystr) (a b : pystr) :
  scattered ks a -> scattered ks (a ++ b).
Proof.
  intros H. rewrite <- (app_nil_r ks). apply scattered_app; [assumption|constructor].
Qed.

Lemma scattered_one (k : pystr) : scattered [k] k.
Proof.
  replace k with ([] ++ k ++ []) at 2 by (simpl; apply app_nil_r).
  repeat constructor.
Qed.

Lemma scattered_filter (f : pystr -> bool) (ks : list pystr) (s : pystr) :
  scattered ks s -> scattered (filter f ks) s.
Proof.
  intros H. induction H as [s|gap k ks s H IH]; simpl; [constructor|].
  destruct (f k); [now constructor|]. now do 2 apply scattered_prefix.
Qed.

Lemma scattered_length (ks : list pystr) (s : pystr) :
  scattered ks s -> list_sum (map (@length ascii) ks) <= length s.
Proof.
  intros H. induction H as [s|gap k ks s H IH]; simpl; [lia|].
  rewrite !length_app. lia.
Qed.

Lemma test_candidate_scattered (c : pystr) : scattered (test_candidate c) c.
Proof.
  apply (test_candidate_ind (fun c r => scattered r c)).
  - intros c0 _. destruct (all_ggtgg c0); simpl; [constructor|apply scattered_one].
  - intros c0 _ _ IH. rewrite <- (firstn_skipn 1 c0) at 2. now apply scattered_prefix.
  - intros c0 t0 rest _ _ _ _ IHl IHr.
    rewrite <- (firstn_skipn (t0 + 1) c0) at 3. now apply scattered_app.
  - intros c0 _ _ _. constructor.
Qed.

(** The candidates that [find_tg_kmers] collects, match by match. *)
Lemma add_kmer_fst (w : pystr) (m : span) (st st' : list pystr * list span) (k : pystr) :
  add_kmer w m st k = Some st' ->
  fst st' = fst st ++ (if negb (pystr_eqb k []) then [k] else []).
Proof.
  destruct m as [ms me], st as [kmers pos]. unfold add_kmer.
  destruct (negb (pystr_eqb k [])).
  - destruct (me - ms =? length k).
    + intros H. now injection H as <-.
    + destruct (re_search (lit k) (slice w ms me)) as [[off e]|]; [|discriminate].
      intros H. now injection H as <-.
  - intros H. injection H as <-. simpl. now rewrite app_nil_r.
Qed.

Lemma for_each_add_kmer_fst (w : pystr) (m : span) (ks : list pystr)
      (st st' : list pystr * list span) :
  for_each (add_kmer w m) ks st = Some st' ->
  fst st' = fst st ++ filter (fun k => negb (pystr_eqb k [])) ks.
Proof.
  revert st. induction ks as [|k ks IH]; intros st; simpl.
  - intros H. injection H as <-. now rewrite app_nil_r.
  - destruct (add_kmer w m st k) as [st1|] eqn:E; [|discriminate].
    intros H. apply IH in H. apply add_kmer_fst in E. rewrite H, E.
    destruct (negb (pystr_eqb k [])); simpl; now rewrite <- app_assoc.
Qed.

Lemma add_match_fst (w : pystr) (st st' : list pystr * list span) (m : span) :
  add_match w st m = Some st' -> fst st' = fst st ++ kmers_of_match w m.
Proof.
  destruct m as [ms me]. unfold add_match, kmers_of_match. simpl.
  destruct (negb (contains_gt4_gs (slice w ms me)) && negb (all_ggtgg (slice w ms me))).
  - apply for_each_add_kmer_fst.
  - intros H. injection H as <-. now rewrite app_nil_r.
Qed.

Lemma find_tg_kmers_fst (w : pystr) (kmers : list pystr) (pos : list span) :
  find_tg_kmers w = Some (kmers, pos) ->
  kmers = flat_map (kmers_of_match w) (re_finditer re_G_GT3 w).
Proof.
  unfold find_tg_kmers.
  assert (H : forall ms st st', for_each (add_match w) ms st = Some st' ->
                fst st' = fst st ++ flat_map (kmers_of_match w) ms).
  { induction ms as [|m ms IH]; intros st st'; simpl.
    - intros E. injection E as <-. now rewrite app_nil_r.
    - destruct (add_match w st m) as [st1|] eqn:E; [|discriminate].
      intros E'. apply IH in E'. apply add_match_fst in E.
      now rewrite E', E, <- app_assoc. }
  intros E. apply H in E. exact E.
Qed.

Lemma kmers_of_match_scattered (w : pystr) (m : span) :
  scattered (kmers_of_match w m) (slice w (fst m) (snd m)).
Proof.
  unfold kmers_of_match.
  destruct (negb (contains_gt4_gs (slice w (fst m) (snd m))) &&
            negb (all_ggtgg (slice w (fst m) (snd m)))); [|constructor].
  apply scattered_filter, test_candidate_scattered.
Qed.

Lemma finditer_scattered (w : pystr) (fuel : nat) (s pre : pystr) :
  w = pre ++ s ->
  scattered (flat_map (kmers_of_match w)
               (finditer_from fuel re_G_GT3 (length pre) s)) s.
Proof.
  revert s pre. induction fuel as [|fuel IH]; intros s pre Hw; [constructor|].
  destruct (search_from re_G_GT3 (length pre) s) as [[a b]|] eqn:E;
    [|simpl; rewrite E; constructor].
  rewrite (finditer_from_step re_G_GT3 re_G_GT3_nonempty _ _ _ _ _ E).
  apply search_from_Some in E as (gap & m & post & -> & -> & -> & _).
  cbn [flat_map].
  replace (length pre + length gap + length m - length pre)
    with (length (gap ++ m)) by (rewrite length_app; lia).
  rewrite app_assoc, skipn_app, skipn_all, Nat.sub_diag. cbn [skipn app].
  rewrite <- app_assoc. apply scattered_prefix, scattered_app.
  - pose proof (kmers_of_match_scattered w
                  (length pre + length gap, length pre + length gap + length m)) as H.
    cbn [fst snd] in H. rewrite Hw in H at 2.
    replace (pre ++ gap ++ m ++ post) with ((pre ++ gap) ++ m ++ post) in H
      by now rewrite <- app_assoc.
    rewrite <- (length_app pre gap), slice_app in H.
    now rewrite length_app in H.
  - replace (length pre + length gap + length m) with (length (pre ++ gap ++ m))
      by (rewrite !length_app; lia).
    apply IH. rewrite Hw, <- !app_assoc. reflexivity.
Qed.

Lemma scattered_In (ks : list pystr) (s k : pystr) :
  scattered ks s -> In k ks -> infix k s.
Proof.
  intros H. induction H as [s|gap k0 ks s H IH]; intros Hin; [contradiction|].
  destruct Hin as [->|Hin].
  - now exists gap, s.
  - destruct (IH Hin) as (a & b & ->). exists (gap ++ k0 ++ a), b.
    now rewrite <- !app_assoc.
Qed.

(** X1.  The candidates of [test_candidate] are pieces of its input that
    follow one another without overlap; together they are no longer than the
    input. *)
Theorem test_candidate_pieces (c : pystr) :
  scattered (test_candidate c) c /\
  list_sum (map (@length ascii) (test_candidate c)) <= length c.
Proof.
  split; [|apply scattered_length]; apply test_candidate_scattered.
Qed.

Lemma find_tg_kmers_scattered (w : pystr) (kmers : list pystr) (pos : list span) :
  find_tg_kmers w = Some (kmers, pos) -> scattered kmers w.
Proof.
  intros H. apply find_tg_kmers_fst in H. subst kmers.
  exact (finditer_scattered w (S (length w)) w [] eq_refl).
Qed.

(** X2.  The candidates of [find_tg_kmers] are pieces of the window that
    follow one another without overlap, in the order of the list; so the raw
    score of a window is at most its length. *)
Theorem find_tg_kmers_pieces (w : pystr) (kmers : list pystr) (pos : list span) :
  find_tg_kmers w = Some (kmers, pos) ->
  scattered kmers w /\ score_groups kmers <= length w.
Proof.
  intros H. apply find_tg_kmers_scattered in H.
  split; [exact H|]. now apply scattered_length.
Qed.

Lemma find_tg_kmers_pieces_witness :
  find_tg_kmers (str "GTGTTGTGT") = Some ([str "GTGT"; str "GTGT"], [(0, 4); (0, 4)]) /\
  scattered [str "GTGT"; str "GTGT"] (str "GTGTTGTGT") /\
  score_groups [str "GTGT"; str "GTGT"] <= length (str "GTGTTGTGT").
Proof.
  assert (H : find_tg_kmers (str "GTGTTGTGT") =
              Some ([str "GTGT"; str "GTGT"], [(0, 4); (0, 4)])) by reflexivity.
  split; [exact H|].
  exact (find_tg_kmers_pieces (str "GTGTTGTGT") _ _ H).
Defined.

Lemma find_tg_kmers_accepted (w k : pystr) (kmers : list pystr) (pos : list span) :
  find_tg_kmers w = Some (kmers, pos) -> In k kmers -> infix k w /\ accepted k.
Proof.
  intros Hrun Hin. split.
  - eapply scattered_In; [|exact Hin]. eapply find_tg_kmers_scattered; eassumption.
  - destruct (find_tg_kmers_inv w) as (st & Hrun' & _ & Hall).
    rewrite Hrun in Hrun'. injection Hrun' as <-. simpl in Hall.
    rewrite Forall_forall in Hall. now apply Hall.
Qed.

(** X3.  Every candidate that [find_tg_kmers] returns occurs in the window,
    is made of ['G'] and ['T'] only, starts with ['G'], has at least four
    nucleotides, contains neither ["TT"] nor ["GGGG"], and is not a pure
    GGTGG repeat. *)
Theorem find_tg_kmers_candidates (w k : pystr) (kmers : list pystr) (pos : list span) :
  find_tg_kmers w = Some (kmers, pos) -> In k kmers ->
  infix k w /\ Forall is_GT k /\ nth_error k 0 = Some chG /\ 4 <= length k /\
  ~ infix (str "TT") k /\ ~ infix (str "GGGG") k /\ all_ggtgg k = false.
Proof.
  intros Hrun Hin.
  destruct (find_tg_kmers_accepted w k kmers pos Hrun Hin) as [Hinf Hall].
  destruct (accepted_shape k Hall) as (rest & Hk & Hlen & _).
  destruct Hall as (Hshape & Hrep & Hg & Hgt).
  apply accepts_shape_inv in Hshape as (Htt & _ & _).
  split; [assumption|]. split; [assumption|]. split; [now rewrite Hk|].
  split; [rewrite Hk; simpl; lia|]. split; [now apply tt_pos_nil|].
  split; [|assumption].
  intros H. apply contains_gt4_gs_iff in H. congruence.
Qed.

Lemma find_tg_kmers_candidates_witness :
  find_tg_kmers (str "AGGTGTTG") = Some ([str "GGTGT"], [(1, 6)]) /\
  In (str "GGTGT") [str "GGTGT"] /\
  (infix (str "GGTGT") (str "AGGTGTTG") /\ Forall is_GT (str "GGTGT") /\
   nth_error (str "GGTGT") 0 = Some chG /\ 4 <= length (str "GGTGT") /\
   ~ infix (str "TT") (str "GGTGT") /\ ~ infix (str "GGGG") (str "GGTGT") /\
   all_ggtgg (str "GGTGT") = false).
Proof.
  assert (Hrun : find_tg_kmers (str "AGGTGTTG") = Some ([str "GGTGT"], [(1, 6)]))
    by reflexivity.
  assert (Hin : In (str "GGTGT") [str "GGTGT"]) by (left; reflexivity).
  split; [exact Hrun|]. split; [exact Hin|].
  exact (find_tg_kmers_candidates (str "AGGTGTTG") (str "GGTGT") _ _ Hrun Hin).
Defined.

(** X4.  [find_tg_kmers] finds nothing, and raises nothing, in a window of
    fewer than four nucleotides (the empty one included), in a window made of
    ['G'] alone, and in a window without any ['G']. *)
Theorem find_tg_kmers_nothing (w : pystr) :
  length w < 4 \/ Forall (eq chG) w \/ ~ In chG w ->
  find_tg_kmers w = Some ([], []).
Proof.
  intros Hw. destruct (find_tg_kmers_inv w) as ([kmers pos] & Hrun & Hpairs & _).
  rewrite Hrun. destruct kmers as [|k ks].
  - simpl in Hpairs. inversion Hpairs. reflexivity.
  - exfalso.
    destruct (find_tg_kmers_accepted w k _ _ Hrun (or_introl eq_refl)) as [Hinf Hacc].
    destruct (accepted_shape k Hacc) as (rest0 & Hk & Hlen3 & _).
    assert (Hhd : nth_error k 0 = Some chG) by now rewrite Hk.
    assert (Hlen : 4 <= length k) by (rewrite Hk; simpl; lia).
    assert (Hg : ~ infix (str "GGGG") k).
    { destruct Hacc as (_ & _ & Hg & _). intros H.
      apply contains_gt4_gs_iff in H. congruence. }
    clear rest0 Hk Hlen3.
    destruct Hw as [Hshort|[HallG|HnoG]].
    + apply infix_length in Hinf. lia.
    + apply Hg. apply (infix_Forall _ _ _ Hinf) in HallG.
      destruct k as [|c1 [|c2 [|c3 [|c4 rest]]]]; simpl in Hlen; try lia.
      inversion HallG as [|? ? <- H1]; subst.
      inversion H1 as [|? ? <- H2]; subst.
      inversion H2 as [|? ? <- H3]; subst.
      inversion H3 as [|? ? <- H4]; subst.
      now exists [], rest.
    + apply HnoG. destruct Hinf as (a & b & ->).
      destruct k as [|c rest]; [discriminate|]. injection Hhd as ->.
      apply in_or_app. right. now left.
Qed.

Lemma find_tg_kmers_nothing_witness :
  (length (str "GGGGG") < 4 \/ Forall (eq chG) (str "GGGGG") \/ ~ In chG (str "GGGGG")) /\
  find_tg_kmers (str "GGGGG") = Some ([], []).
Proof.
  assert (H : length (str "GGGGG") < 4 \/ Forall (eq chG) (str "GGGGG") \/
              ~ In chG (str "GGGGG")).
  { right. left. repeat constructor. }
  split; [exact H|]. exact (find_tg_kmers_nothing (str "GGGGG") H).
Defined.

(** ** Further properties: the scorer *)

Lemma firstn_eq_app (k s : pystr) :
  firstn (length k) s = k <-> exists rem, s = k ++ rem.
Proof.
  split.
  - intros H. exists (skipn (length k) s). rewrite <- H at 1. symmetry.
    apply firstn_skipn.
  - intros (rem & ->). rewrite firstn_app, Nat.sub_diag, firstn_all. simpl.
    apply app_nil_r.
Qed.

Lemma run_lit_dec (k s : pystr) :
  run (lit k) s =
  if pystr_eqb (firstn (length k) s) k then [skipn (length k) s] else [].
Proof.
  destruct (pystr_eqb (firstn (length k) s) k) eqn:E.
  - apply pystr_eqb_eq, firstn_eq_app in E as (rem & ->).
    rewrite run_lit_app, skipn_app, skipn_all, Nat.sub_diag. reflexivity.
  - apply run_lit_nil. intros rem ->. apply pystr_eqb_neq in E. apply E.
    apply firstn_eq_app. now exists rem.
Qed.

Lemma occurrences_cons (k : pystr) (x : ascii) (t : pystr) :
  occurrences k (x :: t) =
  (if pystr_eqb (firstn (length k) (x :: t)) k then 1 else 0) + occurrences k t.
Proof.
  unfold occurrences. cbn [length]. rewrite <- cons_seq, <- seq_shift.
  cbn [filter]. unfold slice at 1. cbn [skipn Nat.add]. rewrite Nat.sub_0_r.
  assert (Hshift : filter (fun i => pystr_eqb (slice (x :: t) i (i + length k)) k)
                     (map S (seq 0 (S (length t)))) =
                   map S (filter (fun i => pystr_eqb (slice t i (i + length k)) k)
                            (seq 0 (S (length t))))).
  { induction (seq 0 (S (length t))) as [|i l IH]; [reflexivity|].
    cbn [map filter]. rewrite IH.
    replace (slice (x :: t) (S i) (S i + length k)) with (slice t i (i + length k))
      by reflexivity.
    destruct (pystr_eqb (slice t i (i + length k)) k); reflexivity. }
  rewrite Hshift.
  destruct (pystr_eqb (firstn (length k) (x :: t)) k); cbn [length];
    now rewrite length_map.
Qed.

Lemma findall_lit_occurrences (k s : pystr) :
  k <> [] ->
  re_findall_overlapped (lit k) s = repeat k (occurrences k s).
Proof.
  intros Hk. induction s as [|x t IH].
  - cbn [re_findall_overlapped]. rewrite run_lit_dec.
    unfold occurrences. cbn [length seq filter]. unfold slice. cbn [skipn Nat.sub Nat.add].
    rewrite firstn_nil.
    destruct k; [congruence|]. reflexivity.
  - cbn [re_findall_overlapped]. rewrite IH, occurrences_cons, run_lit_dec.
    destruct (pystr_eqb (firstn (length k) (x :: t)) k) eqn:E; [|reflexivity].
    apply pystr_eqb_eq in E. cbn [app repeat Nat.add]. f_equal.
    rewrite length_skipn.
    assert (Hlen : length k <= length (x :: t))
      by (rewrite <- E at 1; rewrite length_firstn; lia).
    replace (length (x :: t) - (length (x :: t) - length k)) with (length k) by lia.
    exact E.
Qed.

(** X5.  The GGTGG part of the penalty is [p] for every offset, in every
    candidate, at which ["GGTGG"] occurs; occurrences that overlap count each
    on its own (two in ["GGTGGTGG"]). *)
Theorem ggtgg_penalty_occurrences (seq_groups : list pystr) (p tp : Q) (seq : pystr) :
  (calculate_penalty seq_groups p tp [] seq ==
   of_nat (list_sum (map (occurrences (str "GGTGG")) seq_groups)) * p)%Q /\
  occurrences (str "GGTGG") (str "GGTGGTGG") = 2.
Proof.
  split; [|reflexivity].
  rewrite calculate_penalty_sum. change (flanking_count [] seq) with 0.
  change (of_nat 0) with 0%Q. unfold ggtgg_count.
  assert (E : map (fun g => length (re_findall_overlapped re_GGTGG g)) seq_groups
              = map (occurrences (str "GGTGG")) seq_groups).
  { apply map_ext. intros g. unfold re_GGTGG.
    rewrite findall_lit_occurrences by discriminate. apply repeat_length. }
  rewrite E. ring.
Qed.

Lemma of_nat_nonneg (n : nat) : (0 <= of_nat n)%Q.
Proof.
  unfold of_nat. change 0%Q with (inject_Z 0). rewrite <- Zle_Qle. lia.
Qed.

Lemma of_nat_le (n m : nat) : n <= m -> (of_nat n <= of_nat m)%Q.
Proof. intros H. unfold of_nat. rewrite <- Zle_Qle. lia. Qed.

Lemma calculate_penalty_nonneg (seq_groups : list pystr) (p tp : Q)
      (pos : list span) (seq : pystr) :
  (0 <= p)%Q -> (0 <= tp)%Q -> (0 <= calculate_penalty seq_groups p tp pos seq)%Q.
Proof.
  intros Hp Htp. rewrite calculate_penalty_sum.
  apply Qle_trans with (0 + 0)%Q; [discriminate|].
  apply Qplus_le_compat; apply Qmult_le_0_compat; auto using of_nat_nonneg.
Qed.

Lemma window_score_le_length (w : pystr) (p tp : Q) :
  (0 <= p)%Q -> (0 <= tp)%Q -> (score_of w p tp <= of_nat (length w))%Q.
Proof.
  intros Hp Htp. unfold score_of, window_score.
  destruct (find_tg_kmers_inv w) as ([groups pos] & Hrun & _). rewrite Hrun.
  pose proof (calculate_penalty_nonneg groups p tp pos w Hp Htp) as Hpen.
  assert (Hlen : score_groups groups <= length w)
    by (apply scattered_length; eapply find_tg_kmers_scattered; eassumption).
  apply of_nat_le in Hlen. fold (of_nat (score_groups groups)).
  apply Qle_trans with (of_nat (score_groups groups)); [|assumption].
  apply Qle_minus_iff. ring_simplify. exact Hpen.
Qed.

(** X6.  With penalty weights that are not negative, the penalty is not
    negative and the score of a window is at most the length of the window. *)
Theorem window_score_at_most_length (w : pystr) (p tp : Q) :
  (0 <= p)%Q -> (0 <= tp)%Q ->
  exists groups pos score,
    find_tg_kmers w = Some (groups, pos) /\
    window_score w p tp = Some score /\
    (0 <= calculate_penalty groups p tp pos w)%Q /\
    (score <= of_nat (length w))%Q.
Proof.
  intros Hp Htp. destruct (find_tg_kmers_inv w) as ([groups pos] & Hrun & _).
  exists groups, pos, (score_of w p tp).
  split; [assumption|]. split; [apply window_score_of|].
  split; [now apply calculate_penalty_nonneg|now apply window_score_le_length].
Qed.

Lemma window_score_at_most_length_witness :
  (0 <= 1)%Q /\ (0 <= 1)%Q /\
  exists groups pos score,
    find_tg_kmers (str "AGGTGTTG") = Some (groups, pos) /\
    window_score (str "AGGTGTTG") 1 1 = Some score /\
    (0 <= calculate_penalty groups 1 1 pos (str "AGGTGTTG"))%Q /\
    (score <= of_nat (length (str "AGGTGTTG")))%Q.
Proof.
  assert (H : (0 <= 1)%Q) by discriminate.
  split; [exact H|]. split; [exact H|].
  exact (window_score_at_most_length (str "AGGTGTTG") 1 1 H H).
Defined.

(** ** Further properties: the window aggregators *)

Lemma py_range0_Some (stop step : Z) :
  step <> 0%Z -> exists offsets, py_range0 stop step = Some offsets.
Proof.
  intros H. unfold py_range0. rewrite (proj2 (Z.eqb_neq step 0) H). eauto.
Qed.

(** The max mode is the running maximum over the scores at the offsets of
    the range. *)
Lemma calc_max_score_over_windows_offsets (seq : pystr) (p tp : Q) (window step : Z)
      (x : Q) (offsets : list Z) :
  window_ratio (Z.of_nat (length seq)) window step = Some x ->
  py_range0 (py_round x * step) step = Some offsets ->
  calc_max_score_over_windows seq p tp window step =
  Some (max_over (map (score_at seq p tp window) offsets)).
Proof.
  intros Hx Hr. unfold calc_max_score_over_windows. rewrite Hx. cbv zeta. rewrite Hr.
  apply max_loop.
Qed.

(** X7.  When the length of the sequence and the window differ by less than
    [2^1022] (the quotient is then within the range of the doubles), the two
    aggregators raise exactly when the step is zero (the ZeroDivisionError of
    the window count); for any other step, positive or negative, they
    return. *)
Theorem aggregators_raise_iff_zero_step (seq : pystr) (chrom : string) (start : Z)
        (p tp : Q) (window step : Z) (strand : string) :
  (Z.abs (Z.of_nat (length seq) - window) < 2 ^ 1022)%Z ->
  (calc_score_over_windows seq chrom start p tp window step strand = None <->
   step = 0%Z) /\
  (calc_max_score_over_windows seq p tp window step = None <-> step = 0%Z).
Proof.
  intros Hb. split; split.
  - intros H. destruct (Z.eq_dec step 0) as [E|E]; [assumption|exfalso].
    destruct (window_ratio_returns _ _ _ E Hb) as (x & Hx).
    destruct (py_range0_Some (Qceiling x * step) step E) as (offsets & Hr).
    rewrite (calc_score_over_windows_offsets seq chrom start p tp window step strand
               x offsets Hx Hr) in H.
    discriminate.
  - intros ->. reflexivity.
  - intros H. destruct (Z.eq_dec step 0) as [E|E]; [assumption|exfalso].
    destruct (window_ratio_returns _ _ _ E Hb) as (x & Hx).
    destruct (py_range0_Some (py_round x * step) step E) as (offsets & Hr).
    rewrite (calc_max_score_over_windows_offsets seq p tp window step x offsets Hx Hr) in H.
    discriminate.
  - intros ->. reflexivity.
Qed.

Lemma aggregators_raise_iff_zero_step_witness :
  (Z.abs (Z.of_nat (length (str "GGTGTA")) - 4) < 2 ^ 1022)%Z /\
  (calc_score_over_windows (str "GGTGTA") "chr1" 0 1 1 4 (-3) "+" = None <->
   (-3)%Z = 0%Z) /\
  (calc_max_score_over_windows (str "GGTGTA") 1 1 4 (-3) = None <-> (-3)%Z = 0%Z).
Proof.
  assert (H : (Z.abs (Z.of_nat (length (str "GGTGTA")) - 4) < 2 ^ 1022)%Z)
    by (vm_compute; reflexivity).
  split; [exact H|].
  exact (aggregators_raise_iff_zero_step (str "GGTGTA") "chr1" 0 1 1 4 (-3) "+" H).
Defined.

(** *** The running maximum *)

Lemma fold_max_fin (l : list Q) (m0 : Q) :
  exists m, fold_left max_step l (fin m0) = fin m /\
            (m = m0 \/ In m l) /\ (m0 <= m)%Q /\ Forall (fun q => (q <= m)%Q) l.
Proof.
  revert m0. induction l as [|q l IH]; intros m0; simpl.
  - exists m0. repeat split; auto using Qle_refl.
  - destruct (Qlt_le_dec m0 q) as [Hlt|Hle].
    + destruct (IH q) as (m & -> & Hin & Hq & Hall). exists m.
      split; [reflexivity|]. split; [right; destruct Hin as [->|Hin]; [now left|now right]|].
      split; [eapply Qle_trans; [apply Qlt_le_weak|]; eassumption|].
      now constructor.
    + destruct (IH m0) as (m & -> & Hin & Hm0 & Hall). exists m.
      split; [reflexivity|]. split; [tauto|]. split; [assumption|].
      constructor; [eapply Qle_trans; eassumption|assumption].
Qed.

Lemma max_over_nan (l : list Q) : max_over l = nan <-> l = [].
Proof.
  unfold max_over. destruct l as [|q l]; simpl; [tauto|].
  destruct (fold_max_fin l q) as (m & -> & _). split; discriminate.
Qed.

Lemma max_over_fin (l : list Q) (m : Q) :
  max_over l = fin m -> In m l /\ Forall (fun q => (q <= m)%Q) l.
Proof.
  unfold max_over. destruct l as [|q l]; simpl; [discriminate|].
  destruct (fold_max_fin l q) as (m' & -> & Hin & Hq & Hall).
  intros H. injection H as <-. split; [destruct Hin; auto|now constructor].
Qed.

Lemma In_window_offsets (n step i : Z) :
  In i (window_offsets n step) <-> exists k, (0 <= k < n)%Z /\ i = (k * step)%Z.
Proof.
  unfold window_offsets. rewrite in_map_iff. split.
  - intros (k & <- & Hk). apply in_seq in Hk. exists (Z.of_nat k). split; [lia|reflexivity].
  - intros (k & Hk & ->). exists (Z.to_nat k). split; [f_equal; lia|].
    apply in_seq. lia.
Qed.

(** [round] is the ceiling or one less. *)
Lemma py_round_ceiling_frac (n : Z) (d : positive) :
  (py_round (n # d) <= Qceiling (n # d) <= py_round (n # d) + 1)%Z.
Proof.
  rewrite py_round_frac. cbn zeta.
  assert (Hc : Qceiling (n # d) = (- (- n / Zpos d))%Z) by reflexivity.
  rewrite Hc. pose proof (Z.mod_pos_bound n (Zpos d) eq_refl) as Hm.
  pose proof (Z.div_mod n (Zpos d)) as Hdm.
  assert (Hn : (n - n / Zpos d * Zpos d = n mod Zpos d)%Z) by lia.
  rewrite Hn.
  destruct (Z.eq_dec (n mod Zpos d) 0) as [E|E].
  - rewrite Z.div_opp_l_z by (try assumption; lia). rewrite E. simpl Z.mul.
    change (0 ?= Zpos d)%Z with Lt. cbv iota. lia.
  - rewrite Z.div_opp_l_nz by (try assumption; lia).
    destruct (2 * (n mod Zpos d) ?= Zpos d)%Z; try lia.
    destruct (Z.even (n / Zpos d)); lia.
Qed.

(** X8.  In the max mode with a positive step, once the ratio [x] is
    computed (a double: no overflow), the windows are those at the offsets
    [k * step] for [0 <= k < round(x)].  The result is NaN exactly when there
    is none; otherwise it is the score of one of these windows, and no window
    among them scores more. *)
Theorem max_mode_is_maximum (seq : pystr) (p tp : Q) (window step : Z) (x : Q) :
  (0 < step)%Z ->
  window_ratio (Z.of_nat (length seq)) window step = Some x ->
  exists r,
    calc_max_score_over_windows seq p tp window step = Some r /\
    (r = nan <-> (py_round x <= 0)%Z) /\
    forall m, r = fin m ->
      (exists k, (0 <= k < py_round x)%Z /\
         window_score (py_slice seq (k * step) (k * step + window)) p tp = Some m) /\
      (forall k score, (0 <= k < py_round x)%Z ->
         window_score (py_slice seq (k * step) (k * step + window)) p tp = Some score ->
         (score <= m)%Q).
Proof.
  intros Hstep Hx.
  pose proof (calc_max_score_over_windows_rows seq p tp window step x Hstep Hx) as Hc.
  eexists. split; [exact Hc|]. split.
  - rewrite max_over_nan. unfold window_offsets. split.
    + intros H. apply map_eq_nil in H. apply map_eq_nil in H.
      destruct (Z.to_nat (py_round x)) eqn:E; [lia|discriminate].
    + intros H. replace (Z.to_nat (py_round x)) with 0 by lia. reflexivity.
  - intros m Hm. apply max_over_fin in Hm as [Hin Hall]. split.
    + apply in_map_iff in Hin as (i & <- & Hi).
      apply In_window_offsets in Hi as (k & Hk & ->).
      exists k. split; [assumption|]. apply window_score_of.
    + intros k score Hk Hs. rewrite Forall_forall in Hall.
      rewrite window_score_of in Hs. injection Hs as <-.
      apply Hall. apply in_map_iff. exists (k * step)%Z. split; [reflexivity|].
      apply In_window_offsets. now exists k.
Qed.

Lemma max_mode_is_maximum_witness :
  (0 < 4)%Z /\
  window_ratio (Z.of_nat (length (str "GTGTGGTAAGGTGTTG"))) 8 4 =
    Some (6755399441055744 # 2251799813685248) /\
  exists r,
    calc_max_score_over_windows (str "GTGTGGTAAGGTGTTG") 1 1 8 4 = Some r /\
    (r = nan <-> (py_round (6755399441055744 # 2251799813685248) <= 0)%Z) /\
    forall m, r = fin m ->
      (exists k, (0 <= k < py_round (6755399441055744 # 2251799813685248))%Z /\
         window_score (py_slice (str "GTGTGGTAAGGTGTTG") (k * 4) (k * 4 + 8)) 1 1
         = Some m) /\
      (forall k score, (0 <= k < py_round (6755399441055744 # 2251799813685248))%Z ->
         window_score (py_slice (str "GTGTGGTAAGGTGTTG") (k * 4) (k * 4 + 8)) 1 1
         = Some score ->
         (score <= m)%Q).
Proof.
  assert (H : (0 < 4)%Z) by reflexivity.
  assert (Hx : window_ratio (Z.of_nat (length (str "GTGTGGTAAGGTGTTG"))) 8 4 =
               Some (6755399441055744 # 2251799813685248)) by (vm_compute; reflexivity).
  split; [exact H|]. split; [exact Hx|].
  exact (max_mode_is_maximum (str "GTGTGGTAAGGTGTTG") 1 1 8 4 _ H Hx).
Defined.

(** X9.  In the max mode with a positive step and a positive window, a
    sequence at least as long as the window (and shorter than [2^63], the
    largest size of a Python object) always gets a score: the result is
    never NaN. *)
Theorem max_mode_scores_long_sequence (seq : pystr) (p tp : Q) (window step : Z) :
  (0 < step)%Z -> (0 < window <= Z.of_nat (length seq))%Z ->
  (Z.of_nat (length seq) < 2 ^ 63)%Z ->
  exists m, calc_max_score_over_windows seq p tp window step = Some (fin m).
Proof.
  intros Hstep Hlong Hlen.
  destruct (window_ratio_ge_one (Z.of_nat (length seq)) window step Hstep)
    as (x & Hx & Hone); [lia|].
  rewrite (calc_max_score_over_windows_rows seq p tp window step x Hstep Hx).
  destruct (max_over (map (score_at seq p tp window) (window_offsets (py_round x) step)))
    as [|m] eqn:E; [exfalso|eauto].
  apply max_over_nan, map_eq_nil, map_eq_nil in E.
  assert (Hn : (1 <= py_round x)%Z) by (now apply py_round_ge_Z).
  destruct (Z.to_nat (py_round x)) eqn:E'; [lia|discriminate].
Qed.

Lemma max_mode_scores_long_sequence_witness :
  (0 < 3)%Z /\ (0 < 4 <= Z.of_nat (length (str "GGTGTA")))%Z /\
  (Z.of_nat (length (str "GGTGTA")) < 2 ^ 63)%Z /\
  exists m, calc_max_score_over_windows (str "GGTGTA") 1 1 4 3 = Some (fin m).
Proof.
  assert (H1 : (0 < 3)%Z) by reflexivity.
  assert (H2 : (0 < 4 <= Z.of_nat (length (str "GGTGTA")))%Z) by (simpl; lia).
  assert (H3 : (Z.of_nat (length (str "GGTGTA")) < 2 ^ 63)%Z) by reflexivity.
  split; [exact H1|]. split; [exact H2|]. split; [exact H3|].
  exact (max_mode_scores_long_sequence (str "GGTGTA") 1 1 4 3 H1 H2 H3).
Defined.

(** *** The two modes together *)

Lemma signal_row_score (seq : pystr) (chrom : string) (start : Z) (p tp : Q)
      (window : Z) (strand : string) (i : Z) :
  sw_score (signal_row seq chrom start p tp window strand i) = score_at seq p tp window i.
Proof. unfold signal_row. destruct (String.eqb strand "+"); reflexivity. Qed.

Lemma firstn_seq_le (a n c : nat) : n <= c -> firstn n (List.seq a c) = List.seq a n.
Proof.
  revert a c. induction n as [|n IH]; intros a c H; [reflexivity|].
  destruct c as [|c]; [lia|]. simpl. f_equal. apply IH. lia.
Qed.

Lemma firstn_window_offsets (n c step : Z) :
  (n <= c)%Z -> firstn (Z.to_nat n) (window_offsets c step) = window_offsets n step.
Proof.
  intros H. unfold window_offsets. rewrite firstn_map, firstn_seq_le by lia. reflexivity.
Qed.

(** X10.  With a positive step, whenever the signal mode returns its rows,
    the max mode returns too, and what it returns is the running maximum of
    the scores of the first [n] rows of the signal, where [n] is the number
    of rows or one less: the max mode scores the windows of the signal in
    the same order, all of them or all but the last.  Its result is NaN
    exactly when [n] is zero; otherwise it is the score of one of these [n]
    rows, and none of them scores more. *)
Theorem max_mode_within_signal (seq : pystr) (chrom : string) (start : Z)
        (p tp : Q) (window step : Z) (strand : string) (rows : list scored_window) :
  (0 < step)%Z ->
  calc_score_over_windows seq chrom start p tp window step strand = Some rows ->
  exists n,
    n <= length rows <= n + 1 /\
    calc_max_score_over_windows seq p tp window step =
      Some (max_over (map sw_score (firstn n rows))) /\
    (calc_max_score_over_windows seq p tp window step = Some nan <-> n = 0) /\
    forall m, calc_max_score_over_windows seq p tp window step = Some (fin m) ->
      (exists r, In r (firstn n rows) /\ sw_score r = m) /\
      (forall r, In r (firstn n rows) -> (sw_score r <= m)%Q).
Proof.
  intros Hstep Hrun.
  destruct (calc_score_over_windows_run _ _ _ _ _ _ _ _ _ Hrun) as (x & offsets & Hx & Hr & ->).
  rewrite py_range0_windows in Hr by assumption. injection Hr as <-.
  fold (window_offsets (Qceiling x) step).
  assert (Hrc : (py_round x <= Qceiling x <= py_round x + 1)%Z)
    by (destruct x as [a d]; apply py_round_ceiling_frac).
  set (n := Z.to_nat (py_round x)).
  assert (Hfirst : map sw_score
                     (firstn n (map (signal_row seq chrom start p tp window strand)
                                    (window_offsets (Qceiling x) step))) =
                   map (score_at seq p tp window) (window_offsets (py_round x) step)).
  { rewrite firstn_map. unfold n. rewrite firstn_window_offsets by lia.
    rewrite map_map. apply map_ext. intros i. apply signal_row_score. }
  assert (Hmax : calc_max_score_over_windows seq p tp window step =
                 Some (max_over (map sw_score
                   (firstn n (map (signal_row seq chrom start p tp window strand)
                                  (window_offsets (Qceiling x) step)))))).
  { rewrite Hfirst. now apply calc_max_score_over_windows_rows. }
  exists n. split; [|split; [exact Hmax|split]].
  - unfold window_offsets. rewrite !length_map, length_seq. unfold n. lia.
  - rewrite Hmax, Hfirst. split.
    + intros H. injection H as H. apply max_over_nan, map_eq_nil in H.
      unfold window_offsets in H. apply map_eq_nil in H.
      fold n in H. destruct n; [reflexivity|discriminate].
    + intros H. unfold window_offsets. fold n. rewrite H. reflexivity.
  - intros m Hm. rewrite Hmax in Hm. injection Hm as Hm.
    apply max_over_fin in Hm as [Hin Hall]. split.
    + apply in_map_iff in Hin as (r & Hr & Hin). now exists r.
    + intros r Hr. rewrite Forall_forall in Hall. apply Hall. now apply in_map.
Qed.

Lemma max_mode_within_signal_witness :
  (0 < 4)%Z /\
  calc_score_over_windows (str "GTGTGGTAAGGTGTTG") "chr1" 100 1 1 8 4 "+" =
    Some [mk_scored_window "chr1" 100 108 7; mk_scored_window "chr1" 104 112 0;
          mk_scored_window "chr1" 108 116 4] /\
  exists n,
    n <= length [mk_scored_window "chr1" 100 108 7; mk_scored_window "chr1" 104 112 0;
                 mk_scored_window "chr1" 108 116 4] <= n + 1 /\
    calc_max_score_over_windows (str "GTGTGGTAAGGTGTTG") 1 1 8 4 =
      Some (max_over (map sw_score
        (firstn n [mk_scored_window "chr1" 100 108 7; mk_scored_window "chr1" 104 112 0;
                   mk_scored_window "chr1" 108 116 4]))) /\
    (calc_max_score_over_windows (str "GTGTGGTAAGGTGTTG") 1 1 8 4 = Some nan <-> n = 0) /\
    forall m, calc_max_score_over_windows (str "GTGTGGTAAGGTGTTG") 1 1 8 4 = Some (fin m) ->
      (exists r,
         In r (firstn n [mk_scored_window "chr1" 100 108 7;
                         mk_scored_window "chr1" 104 112 0;
                         mk_scored_window "chr1" 108 116 4]) /\ sw_score r = m) /\
      (forall r,
         In r (firstn n [mk_scored_window "chr1" 100 108 7;
                         mk_scored_window "chr1" 104 112 0;
                         mk_scored_window "chr1" 108 116 4]) -> (sw_score r <= m)%Q).
Proof.
  assert (H : (0 < 4)%Z) by reflexivity.
  assert (Hrun : calc_score_over_windows (str "GTGTGGTAAGGTGTTG") "chr1" 100 1 1 8 4 "+" =
    Some [mk_scored_window "chr1" 100 108 7; mk_scored_window "chr1" 104 112 0;
          mk_scored_window "chr1" 108 116 4]) by (vm_compute; reflexivity).
  split; [exact H|]. split; [exact Hrun|].
  exact (max_mode_within_signal (str "GTGTGGTAAGGTGTTG") "chr1" 100 1 1 8 4 "+" _ H Hrun).
Defined.

(** *** The rows of the signal *)

Lemma py_slice_infix (seq : pystr) (lo hi : Z) : infix (py_slice seq lo hi) seq.
Proof. unfold py_slice. apply slice_infix. Qed.

(** X11.  In every row of the signal, for any step and any window, the start
    is not after the end and the row is not wider than the sequence; with
    penalty weights that are not negative, the score of a row is at most its
    width. *)
Theorem signal_row_bounds (seq : pystr) (chrom : string) (start : Z)
        (p tp : Q) (window step : Z) (strand : string) (rows : list scored_window)
        (r : scored_window) :
  calc_score_over_windows seq chrom start p tp window step strand = Some rows ->
  In r rows ->
  (sw_start r <= sw_end r)%Z /\
  (sw_end r - sw_start r <= Z.of_nat (length seq))%Z /\
  ((0 <= p)%Q -> (0 <= tp)%Q -> (sw_score r <= inject_Z (sw_end r - sw_start r))%Q).
Proof.
  intros Hrun Hin.
  destruct (calc_score_over_windows_run _ _ _ _ _ _ _ _ _ Hrun)
    as (x & offsets & _ & _ & ->).
  apply in_map_iff in Hin as (i & <- & _).
  pose proof (infix_length _ _ (py_slice_infix seq i (i + window))) as Hlen.
  assert (Hscore : (0 <= p)%Q -> (0 <= tp)%Q ->
            (score_of (py_slice seq i (i + window)) p tp <=
             inject_Z (Z.of_nat (length (py_slice seq i (i + window)))))%Q)
    by (intros; now apply window_score_le_length).
  unfold signal_row. destruct (String.eqb strand "+"); simpl.
  - split; [lia|]. split; [lia|]. intros Hp Htp.
    replace (start + i + Z.of_nat (length (py_slice seq i (i + window))) - (start + i))%Z
      with (Z.of_nat (length (py_slice seq i (i + window)))) by lia. auto.
  - split; [lia|]. split; [lia|]. intros Hp Htp.
    replace (start - i - (start - i - Z.of_nat (length (py_slice seq i (i + window)))))%Z
      with (Z.of_nat (length (py_slice seq i (i + window)))) by lia. auto.
Qed.

Lemma signal_row_bounds_witness :
  calc_score_over_windows (str "AGGTGTTG") "chr1" 10 1 1 8 8 "-" =
    Some [mk_scored_window "chr1" 2 10 4] /\
  In (mk_scored_window "chr1" 2 10 4) [mk_scored_window "chr1" 2 10 4] /\
  (2 <= 10)%Z /\ (10 - 2 <= Z.of_nat (length (str "AGGTGTTG")))%Z /\
  ((0 <= 1)%Q -> (0 <= 1)%Q -> (4 <= inject_Z (10 - 2))%Q).
Proof.
  assert (Hrun : calc_score_over_windows (str "AGGTGTTG") "chr1" 10 1 1 8 8 "-" =
                 Some [mk_scored_window "chr1" 2 10 4]) by reflexivity.
  assert (Hin : In (mk_scored_window "chr1" 2 10 4) [mk_scored_window "chr1" 2 10 4])
    by (left; reflexivity).
  split; [exact Hrun|]. split; [exact Hin|].
  exact (signal_row_bounds (str "AGGTGTTG") "chr1" 10 1 1 8 8 "-" _ _ Hrun Hin).
Defined.

(** X12.  The strand changes the coordinates only: the rows of the ['-']
    strand are the rows of the ['+'] strand, in the same order and with the
    same scores, each reflected about [start]. *)
Theorem minus_strand_mirrors_plus (seq : pystr) (chrom : string) (start : Z)
        (p tp : Q) (window step : Z) (rows : list scored_window) :
  calc_score_over_windows seq chrom start p tp window step "+" = Some rows ->
  calc_score_over_windows seq chrom start p tp window step "-" =
  Some (map (mirror start) rows).
Proof.
  intros Hrun.
  destruct (calc_score_over_windows_run _ _ _ _ _ _ _ _ _ Hrun)
    as (x & offsets & Hx & Hr & ->).
  rewrite (calc_score_over_windows_offsets seq chrom start p tp window step "-"
             x offsets Hx Hr).
  rewrite map_map. f_equal. apply map_ext. intros i.
  unfold signal_row, mirror. cbn [String.eqb Ascii.eqb Bool.eqb sw_chrom sw_start sw_end sw_score].
  f_equal; lia.
Qed.

Lemma minus_strand_mirrors_plus_witness :
  calc_score_over_windows (str "AGGTGTTG") "chr1" 10 1 1 8 8 "+" =
    Some [mk_scored_window "chr1" 10 18 4] /\
  calc_score_over_windows (str "AGGTGTTG") "chr1" 10 1 1 8 8 "-" =
    Some (map (mirror 10) [mk_scored_window "chr1" 10 18 4]).
Proof.
  assert (Hrun : calc_score_over_windows (str "AGGTGTTG") "chr1" 10 1 1 8 8 "+" =
                 Some [mk_scored_window "chr1" 10 18 4]) by reflexivity.
  split; [exact Hrun|].
  exact (minus_strand_mirrors_plus (str "AGGTGTTG") "chr1" 10 1 1 8 8 _ Hrun).
Defined.

Lemma nth_error_map_seq {A : Type} (g : nat -> A) (a n k : nat) (r : A) :
  nth_error (map g (seq a n)) k = Some r -> r = g (a + k) /\ k < n.
Proof.
  revert a k. induction n as [|n IH]; intros a k; simpl.
  - destruct k; discriminate.
  - destruct k as [|k]; simpl.
    + intros H. injection H as <-. rewrite Nat.add_0_r. split; [reflexivity|lia].
    + intros H. apply IH in H as [-> Hk]. split; [f_equal; lia|lia].
Qed.

(** X13.  With a positive window and a positive step, the [k]-th row of the
    signal is the window at the offset [k * step]: it carries the chromosome
    name, its width is [min (k*step + window) L - min (k*step) L] (the
    window, cut at the end of the sequence), on the ['+'] strand it starts at
    [start + k*step], and on the ['-'] strand it ends at [start - k*step]. *)
Theorem signal_rows_advance_by_step (seq : pystr) (chrom : string) (start : Z)
        (p tp : Q) (window step : Z) (strand : string) (rows : list scored_window)
        (k : nat) (r : scored_window) :
  (0 < window)%Z -> (0 < step)%Z ->
  calc_score_over_windows seq chrom start p tp window step strand = Some rows ->
  nth_error rows k = Some r ->
  sw_chrom r = chrom /\
  (sw_end r - sw_start r =
   Z.min (Z.of_nat k * step + window) (Z.of_nat (length seq)) -
   Z.min (Z.of_nat k * step) (Z.of_nat (length seq)))%Z /\
  (strand = "+"%string -> sw_start r = (start + Z.of_nat k * step)%Z) /\
  (strand = "-"%string -> sw_end r = (start - Z.of_nat k * step)%Z).
Proof.
  intros Hw Hstep Hrun Hk.
  destruct (calc_score_over_windows_run _ _ _ _ _ _ _ _ _ Hrun)
    as (x & offsets & _ & Hr & ->).
  rewrite py_range0_windows in Hr by assumption. injection Hr as <-.
  rewrite map_map in Hk. apply nth_error_map_seq in Hk as [-> _]. simpl Nat.add.
  assert (Hlen := py_slice_length seq (Z.of_nat k * step) window).
  cbn zeta in Hlen. rewrite <- Hlen by nia.
  unfold signal_row. destruct (String.eqb_spec strand "+") as [->|Hne]; simpl.
  - split; [reflexivity|]. split; [lia|]. split; [reflexivity|discriminate].
  - split; [reflexivity|]. split; [lia|]. split; [congruence|reflexivity].
Qed.

Lemma signal_rows_advance_by_step_witness :
  (0 < 8)%Z /\ (0 < 4)%Z /\
  calc_score_over_windows (str "GTGTGGTAAGGTGTTG") "chr1" 100 1 1 8 4 "+" =
    Some [mk_scored_window "chr1" 100 108 7; mk_scored_window "chr1" 104 112 0;
          mk_scored_window "chr1" 108 116 4] /\
  nth_error [mk_scored_window "chr1" 100 108 7; mk_scored_window "chr1" 104 112 0;
             mk_scored_window "chr1" 108 116 4] 2 = Some (mk_scored_window "chr1" 108 116 4) /\
  ("chr1"%string = "chr1"%string /\
   (116 - 108 =
    Z.min (Z.of_nat 2 * 4 + 8) (Z.of_nat (length (str "GTGTGGTAAGGTGTTG"))) -
    Z.min (Z.of_nat 2 * 4) (Z.of_nat (length (str "GTGTGGTAAGGTGTTG"))))%Z /\
   ("+"%string = "+"%string -> 108%Z = (100 + Z.of_nat 2 * 4)%Z) /\
   ("+"%string = "-"%string -> 116%Z = (100 - Z.of_nat 2 * 4)%Z)).
Proof.
  assert (H8 : (0 < 8)%Z) by reflexivity.
  assert (H4 : (0 < 4)%Z) by reflexivity.
  assert (Hrun : calc_score_over_windows (str "GTGTGGTAAGGTGTTG") "chr1" 100 1 1 8 4 "+" =
    Some [mk_scored_window "chr1" 100 108 7; mk_scored_window "chr1" 104 112 0;
          mk_scored_window "chr1" 108 116 4]) by reflexivity.
  assert (Hk : nth_error [mk_scored_window "chr1" 100 108 7;
                          mk_scored_window "chr1" 104 112 0;
                          mk_scored_window "chr1" 108 116 4] 2
               = Some (mk_scored_window "chr1" 108 116 4)) by reflexivity.
  split; [exact H8|]. split; [exact H4|]. split; [exact Hrun|]. split; [exact Hk|].
  exact (signal_rows_advance_by_step (str "GTGTGGTAAGGTGTTG") "chr1" 100 1 1 8 4 "+"
           _ 2 _ H8 H4 Hrun Hk).
Defined.

(** X14.  With a positive step that is at most the window, a window and a
    length of the sequence below [2^49] (so that the ratio computed in double
    precision has the ceiling of the exact ratio), and a sequence longer than
    [window - step], the windows of the signal cover the sequence: every
    position of the sequence lies in a row of the ['+'] strand. *)
Theorem signal_covers_sequence (seq : pystr) (chrom : string) (start : Z)
        (p tp : Q) (window step : Z) :
  (0 < step)%Z -> (step <= window)%Z -> (window < 2 ^ 49)%Z ->
  (window - step < Z.of_nat (length seq))%Z -> (Z.of_nat (length seq) < 2 ^ 49)%Z ->
  exists rows,
    calc_score_over_windows seq chrom start p tp window step "+" = Some rows /\
    forall j, (0 <= j < Z.of_nat (length seq))%Z ->
      exists r, In r rows /\ (sw_start r <= start + j < sw_end r)%Z.
Proof.
  intros Hstep Hsw Hw Hlong Hlen.
  destruct (window_ratio_counts (Z.of_nat (length seq)) window step)
    as (x & Hx & Hcl & _); [lia|lia|].
  pose proof (calc_score_over_windows_rows seq chrom start p tp window step "+" x
                Hstep Hx) as Hrows.
  eexists. split; [exact Hrows|]. intros j Hj.
  destruct (ceiling_bounds _ _ _
              (Qeq_refl ((Z.of_nat (length seq) - window + step) # Z.to_pos step)))
    as [Hlo Hhi].
  rewrite <- Hcl, Z2Pos.id in Hlo, Hhi by assumption.
  set (c := Qceiling x) in *.
  assert (Hc : (1 <= c)%Z) by nia.
  set (k := Z.min (j / step) (c - 1)).
  assert (Hdiv : (0 <= j / step)%Z) by (apply Z.div_pos; lia).
  assert (Hk : (0 <= k < c)%Z) by (unfold k; lia).
  pose proof (Z.mul_div_le j step Hstep) as Hle.
  pose proof (Z.mod_pos_bound j step Hstep) as Hmod.
  pose proof (Z.div_mod j step ltac:(lia)) as Hdm.
  assert (Hi : (k * step <= j)%Z) by (unfold k; nia).
  assert (Hreach : (j < k * step + window)%Z).
  { unfold k. destruct (Z.min_spec (j / step) (c - 1)) as [[_ ->]|[_ ->]]; nia. }
  exists (signal_row seq chrom start p tp window "+" (k * step)%Z). split.
  - apply in_map. apply (In_window_offsets c step). now exists k.
  - unfold signal_row. simpl. rewrite py_slice_length by nia. lia.
Qed.

Lemma signal_covers_sequence_witness :
  (0 < 4)%Z /\ (4 <= 8)%Z /\ (8 < 2 ^ 49)%Z /\
  (8 - 4 < Z.of_nat (length (str "GTGTGGTAAGGTGTTG")))%Z /\
  (Z.of_nat (length (str "GTGTGGTAAGGTGTTG")) < 2 ^ 49)%Z /\
  exists rows,
    calc_score_over_windows (str "GTGTGGTAAGGTGTTG") "chr1" 100 1 1 8 4 "+" = Some rows /\
    forall j, (0 <= j < Z.of_nat (length (str "GTGTGGTAAGGTGTTG")))%Z ->
      exists r, In r rows /\ (sw_start r <= 100 + j < sw_end r)%Z.
Proof.
  assert (H1 : (0 < 4)%Z) by reflexivity.
  assert (H2 : (4 <= 8)%Z) by (intros H; discriminate H).
  assert (H3 : (8 < 2 ^ 49)%Z) by reflexivity.
  assert (H4 : (8 - 4 < Z.of_nat (length (str "GTGTGGTAAGGTGTTG")))%Z) by reflexivity.
  assert (H5 : (Z.of_nat (length (str "GTGTGGTAAGGTGTTG")) < 2 ^ 49)%Z) by reflexivity.
  split; [exact H1|]. split; [exact H2|]. split; [exact H3|]. split; [exact H4|].
  split; [exact H5|].
  exact (signal_covers_sequence (str "GTGTGGTAAGGTGTTG") "chr1" 100 1 1 8 4
           H1 H2 H3 H4 H5).
Defined.

(** *** Printing *)

Lemma score_of_nonneg (w : pystr) (p tp : Q) :
  (p <= 0)%Q -> (tp <= 0)%Q -> (0 <= score_of w p tp)%Q.
Proof.
  intros Hp Htp. unfold score_of, window_score.
  destruct (find_tg_kmers_inv w) as ([groups pos] & -> & _).
  rewrite calculate_penalty_sum. fold (of_nat (score_groups groups)).
  pose proof (of_nat_nonneg (score_groups groups)) as H0.
  pose proof (of_nat_nonneg (ggtgg_count groups)) as H1.
  pose proof (of_nat_nonneg (flanking_count pos w)) as H2.
  assert (Ha : (0 <= of_nat (ggtgg_count groups) * - p)%Q).
  { apply Qmult_le_0_compat; [assumption|]. apply (Qopp_le_compat p 0) in Hp. exact Hp. }
  assert (Hb : (0 <= of_nat (flanking_count pos w) * - tp)%Q).
  { apply Qmult_le_0_compat; [assumption|]. apply (Qopp_le_compat tp 0) in Htp. exact Htp. }
  apply Qle_trans with (0 + (0 + 0))%Q; [discriminate|].
  setoid_replace (of_nat (score_groups groups) -
                  (of_nat (ggtgg_count groups) * p + of_nat (flanking_count pos w) * tp))%Q
    with (of_nat (score_groups groups) +
          (of_nat (ggtgg_count groups) * - p + of_nat (flanking_count pos w) * - tp))%Q
    by ring.
  repeat apply Qplus_le_compat; assumption.
Qed.

(** X15.  With the default weights and threshold (all zero; more generally
    none of them positive) every row of the signal is printed: no score is
    negative. *)
Theorem default_prints_every_row (seq : pystr) (chrom : string) (start : Z)
        (p tp threshold : Q) (window step : Z) (strand : string)
        (rows : list scored_window) :
  (p <= 0)%Q -> (tp <= 0)%Q -> (threshold <= 0)%Q ->
  calc_score_over_windows seq chrom start p tp window step strand = Some rows ->
  signal_to_bedgraph rows threshold = rows.
Proof.
  intros Hp Htp Hthr Hrun.
  destruct (calc_score_over_windows_run _ _ _ _ _ _ _ _ _ Hrun)
    as (x & offsets & _ & _ & ->).
  clear Hrun. unfold signal_to_bedgraph. induction offsets as [|i l IH]; [reflexivity|].
  cbn [map filter]. rewrite IH.
  replace (Qle_bool threshold (sw_score (signal_row seq chrom start p tp window strand i)))
    with true; [reflexivity|].
  symmetry. apply Qle_bool_iff. rewrite signal_row_score.
  eapply Qle_trans; [exact Hthr|]. now apply score_of_nonneg.
Qed.

Lemma default_prints_every_row_witness :
  (0 <= 0)%Q /\ (0 <= 0)%Q /\ (0 <= 0)%Q /\
  calc_score_over_windows (str "AGGTGTTG") "chr1" 10 0 0 8 8 "+" =
    Some [mk_scored_window "chr1" 10 18 5] /\
  signal_to_bedgraph [mk_scored_window "chr1" 10 18 5] 0 = [mk_scored_window "chr1" 10 18 5].
Proof.
  assert (H0 : (0 <= 0)%Q) by discriminate.
  assert (Hrun : calc_score_over_windows (str "AGGTGTTG") "chr1" 10 0 0 8 8 "+" =
                 Some [mk_scored_window "chr1" 10 18 5]) by reflexivity.
  split; [exact H0|]. split; [exact H0|]. split; [exact H0|]. split; [exact Hrun|].
  exact (default_prints_every_row (str "AGGTGTTG") "chr1" 10 0 0 0 8 8 "+" _ H0 H0 H0 Hrun).
Defined.

(** ** Further properties: the header of a record *)

Lemma run_sep_cons (x : ascii) (t : pystr) :
  run re_sep (x :: t) = [] <-> not_sep x.
Proof.
  unfold re_sep, not_sep. cbn [run existsb].
  destruct (Ascii.eqb_spec x ch_colon) as [->|H1]; cbn [orb].
  - split; [discriminate|]. intros [H _]. congruence.
  - destruct (Ascii.eqb_spec x ch_dash) as [->|H2]; cbn [orb].
    + split; [discriminate|]. intros [_ H]. congruence.
    + tauto.
Qed.

Lemma lang_sep (m : pystr) :
  lang re_sep m -> exists c, m = [c] /\ ~ not_sep c.
Proof.
  intros H. inversion H as [| |c cs Hin| | | | | |]; subst. exists c.
  split; [reflexivity|]. unfold not_sep.
  destruct Hin as [<-|[<-|[]]]; tauto.
Qed.

Lemma re_sep_nonempty : ~ lang re_sep [].
Proof. intros H. apply lang_sep in H as (c & H & _). discriminate. Qed.

Lemma search_sep_None (s : pystr) (i : nat) :
  search_from re_sep i s = None <-> Forall not_sep s.
Proof.
  rewrite search_from_None. split.
  - intros H. induction s as [|x t IH]; constructor.
    + apply run_sep_cons with (t := t). exact (H 0).
    + apply IH. intros j. exact (H (S j)).
  - intros H j.
    assert (Hj : Forall not_sep (skipn j s)).
    { apply (infix_Forall _ _ _ (infix_skipn j s) H). }
    destruct (skipn j s) as [|x t]; [reflexivity|].
    apply run_sep_cons. now inversion Hj.
Qed.

Lemma search_sep_Some (s : pystr) (i a b : nat) :
  search_from re_sep i s = Some (a, b) ->
  exists h c rest,
    s = h ++ c :: rest /\ a = i + length h /\ b = S a /\
    ~ not_sep c /\ Forall not_sep h.
Proof.
  intros H. apply search_from_Some in H as (h & m & rest & -> & -> & -> & Hl & _ & Hbefore).
  apply lang_sep in Hl as (c & -> & Hc).
  exists h, c, rest. split; [reflexivity|]. split; [reflexivity|].
  split; [simpl; lia|]. split; [assumption|].
  clear Hc. induction h as [|x h IH]; constructor.
  - apply run_sep_cons with (t := h ++ [c] ++ rest). apply (Hbefore 0). simpl. lia.
  - apply IH. intros j Hj. apply (Hbefore (S j)). simpl. lia.
Qed.

(** The two first fields of the header. *)
Lemma record_header_fields (id : pystr) :
  record_header id =
  match search_from re_sep 0 id with
  | None => None
  | Some (a, b) =>
      Some (py_lower (slice (slice id 0 a) 0 3) ++ skipn 3 (slice id 0 a),
            match search_from re_sep b (skipn b id) with
            | None => slice id b (length id)
            | Some (a2, _) => slice id b a2
            end)
  end.
Proof.
  unfold record_header, re_split. rewrite re_finditer_head. unfold re_search.
  destruct (search_from re_sep 0 id) as [[a b]|] eqn:E; [|reflexivity].
  pose proof (search_from_nonempty re_sep re_sep_nonempty id 0 a b E) as (_ & Hab & Hb).
  rewrite (proj2 (Nat.eqb_neq b a)) by lia. cbn zeta. rewrite Nat.sub_0_r.
  rewrite (finditer_from_fuel re_sep re_sep_nonempty (length id)
             (S (length (skipn b id)))) by (rewrite length_skipn; lia).
  destruct (search_from re_sep b (skipn b id)) as [[a2 b2]|] eqn:E2.
  - rewrite (finditer_from_step re_sep re_sep_nonempty _ _ _ _ _ E2). reflexivity.
  - cbn [finditer_from]. rewrite E2. reflexivity.
Qed.

(** X16.  Taking the chromosome and the start from the identifier of a
    record raises (the IndexError of [header[1]]) exactly when the identifier
    contains neither [':'] nor ['-']. *)
Theorem record_header_raises_iff (id : pystr) :
  record_header id = None <-> Forall not_sep id.
Proof.
  rewrite <- (search_sep_None id 0), record_header_fields.
  destruct (search_from re_sep 0 id) as [[a b]|]; [split; discriminate|tauto].
Qed.

Lemma py_lower_length (s : pystr) : length (py_lower s) = length s.
Proof. apply length_map. Qed.

(** X17.  When the identifier has a separator, the chromosome is the text
    before the first [':'] or ['-'], of the same length, with its first three
    characters in lower case and the others unchanged; the start is the text
    between that separator and the next one (or the end of the identifier). *)
Theorem record_header_parts (id chrom st : pystr) :
  record_header id = Some (chrom, st) ->
  exists h0 c tail,
    id = h0 ++ c :: st ++ tail /\
    ~ not_sep c /\ Forall not_sep h0 /\ Forall not_sep st /\
    (tail = [] \/ exists c2 tail2, tail = c2 :: tail2 /\ ~ not_sep c2) /\
    chrom = py_lower (firstn 3 h0) ++ skipn 3 h0 /\
    length chrom = length h0.
Proof.
  rewrite record_header_fields.
  destruct (search_from re_sep 0 id) as [[a b]|] eqn:E; [|discriminate].
  intros H. injection H as Hchrom Hst.
  apply search_sep_Some in E as (h0 & c & rest & -> & Ha & -> & Hc & Hh0).
  simpl in Ha. subst a.
  assert (Hfirst : slice (h0 ++ c :: rest) 0 (length h0) = h0).
  { unfold slice. rewrite Nat.sub_0_r. cbn [skipn].
    rewrite firstn_app, Nat.sub_diag, firstn_all. simpl. apply app_nil_r. }
  assert (Hskip : skipn (S (length h0)) (h0 ++ c :: rest) = rest).
  { replace (S (length h0)) with (length (h0 ++ [c])) by (rewrite length_app; simpl; lia).
    replace (h0 ++ c :: rest) with ((h0 ++ [c]) ++ rest) by now rewrite <- app_assoc.
    rewrite skipn_app, skipn_all, Nat.sub_diag. reflexivity. }
  rewrite Hfirst in Hchrom. rewrite Hskip in Hst.
  unfold slice in Hchrom at 1. rewrite Nat.sub_0_r in Hchrom. cbn [skipn] in Hchrom.
  assert (Hlen : length chrom = length h0).
  { rewrite <- Hchrom, length_app, py_lower_length, <- length_app, firstn_skipn.
    reflexivity. }
  unfold slice in Hst. rewrite Hskip in Hst.
  destruct (search_from re_sep (S (length h0)) rest) as [[a2 b2]|] eqn:E2.
  - apply search_sep_Some in E2 as (h1 & c2 & rest2 & -> & -> & -> & Hc2 & Hh1).
    replace (S (length h0) + length h1 - S (length h0)) with (length h1) in Hst by lia.
    rewrite firstn_app, Nat.sub_diag, firstn_all in Hst. simpl in Hst.
    rewrite app_nil_r in Hst. subst st.
    exists h0, c, (c2 :: rest2). repeat split; auto.
    right. now exists c2, rest2.
  - apply search_sep_None in E2.
    rewrite firstn_all2 in Hst by (rewrite !length_app; simpl; lia). subst st.
    exists h0, c, []. rewrite app_nil_r. repeat split; auto.
Qed.

Lemma record_header_parts_witness :
  record_header (str "ChrIV:100-200") = Some (str "chrIV", str "100") /\
  exists h0 c tail,
    str "ChrIV:100-200" = h0 ++ c :: str "100" ++ tail /\
    ~ not_sep c /\ Forall not_sep h0 /\ Forall not_sep (str "100") /\
    (tail = [] \/ exists c2 tail2, tail = c2 :: tail2 /\ ~ not_sep c2) /\
    str "chrIV" = py_lower (firstn 3 h0) ++ skipn 3 h0 /\
    length (str "chrIV") = length h0.
Proof.
  assert (H : record_header (str "ChrIV:100-200") = Some (str "chrIV", str "100"))
    by reflexivity.
  split; [exact H|].
  exact (record_header_parts (str "ChrIV:100-200") _ _ H).
Defined.

(** ** Further properties: the classifier of long runs of G *)

(** X18.  [contains_gt4_gs] holds exactly of the strings in which four
    ['G'] in a row occur, wherever they are and whatever surrounds them; so a
    string inherits it from any of its pieces. *)
Theorem contains_gt4_gs_occurs (s : pystr) :
  (contains_gt4_gs s = true <-> exists pre post, s = pre ++ str "GGGG" ++ post) /\
  (forall k, infix k s -> contains_gt4_gs k = true -> contains_gt4_gs s = true).
Proof.
  split.
  - exact (contains_gt4_gs_iff s).
  - intros k Hk Hg. destruct (contains_gt4_gs s) eqn:E; [reflexivity|].
    rewrite (contains_gt4_gs_infix k s Hk E) in Hg. discriminate.
Qed.
